(** * tile38 collection: a shallow embedding of
      src/controller/collection/collection.go and src/geojson/feature.go

    The development follows the Go sources function by function.

    - Go [int] is a 64-bit two's complement integer: it is a [Z] and every
      arithmetic operation is followed by [wrap].
    - Go [float64] is Rocq's primitive binary64 float.
    - A Go [string] or [[]byte] is a [string] (a sequence of bytes).
    - A [[]float64] is a [list float]; the code only takes [len], indexes,
      appends and ranges over these slices, so a nil slice and an empty one
      are both the empty list.  A [[]string] is an [option (list string)]
      because [ReplaceOrInsert] tests [fields == nil].
    - A Go panic (nil dereference, index out of range) is the outcome
      [Panic]; the collection keeps the state it had when the panic was
      raised. *)

From Stdlib Require Import ZArith Lia Ascii String List Bool.
From Stdlib Require Import Floats.PrimFloat Floats.SpecFloat Floats.FloatOps.
From stdpp Require Import gmap strings list fin_maps.

Local Open Scope Z_scope.
Set Warnings "-register-all".

(** ** Go integers *)

Module GoInt.

Definition wrap (z : Z) : Z := (z + 2 ^ 63) `mod` 2 ^ 64 - 2 ^ 63.

Definition in_range (z : Z) : Prop := - 2 ^ 63 <= z < 2 ^ 63.

Definition add (a b : Z) : Z := wrap (a + b).
Definition sub (a b : Z) : Z := wrap (a - b).
Definition mul (a b : Z) : Z := wrap (a * b).

(** [len] of a slice, a map or a string: never negative, and below 2^63
    for anything that fits in memory. *)
Definition len {A} (l : list A) : Z := Z.of_nat (length l).
Definition strlen (s : string) : Z := Z.of_nat (String.length s).

(** Equality of integers as 64-bit words. *)
Definition eq64 (a b : Z) : Prop := a `mod` 2 ^ 64 = b `mod` 2 ^ 64.

(** [float64(z)] for an [int] z: rounding to nearest, ties to even. *)
Definition float64 (z : Z) : float := SF2Prim (binary_normalize 53 1024 z 0 false).

End GoInt.

(** ** Outcomes *)

Inductive res (A : Type) : Type :=
| Ok (a : A)
| Panic.
Arguments Ok {A} a.
Arguments Panic {A}.

Definition res_bind {A B} (r : res A) (k : A -> res B) : res B :=
  match r with
  | Ok a => k a
  | Panic => Panic
  end.

Notation "'try' x <- r ; k" := (res_bind r (fun x => k))
  (at level 10, x name, r at level 100, k at level 200).

(** ** package geojson *)

Module geojson.

(** [Position] has the members X, Y and Z; the last one is [Zc] here, [Z]
    being the type of integers. *)
Record Position : Type := { X : float; Y : float; Zc : float }.

Record BBox : Type := { Min : Position; Max : Position }.

(** An [Object] implemented outside feature.go (Point, Polygon, String,
    ...) is known by what its methods return. *)
Record Caps : Type := {
  caps_IsGeometry : bool;
  caps_CalculatedBBox : BBox;
  caps_PositionCount : Z;
  caps_Weight : Z;
  caps_JSON : string;
  caps_String : string;
  caps_MarshalJSON : string;
  caps_hasPositions : bool;
  caps_WithinBBox : BBox -> bool;
  caps_IntersectsBBox : BBox -> bool;
  caps_Nearby : Position -> float -> bool
}.

(** The interface [Object].  [Feature] is the struct of feature.go; its
    member [Geometry] is an interface value and [BBox] a pointer, and both
    can be nil. *)
Inductive Object : Type :=
| Opaque (k : Caps)
| Feature (Geometry : option Object) (BBox_ : option BBox) (Properties : string).

(** What feature.go and collection.go use of the rest of the geometry
    layer and of encoding/json, none of which is in the sources at hand. *)
Class Externals : Type := {
  sizeofPosition : Z;
  BBox_write : option BBox -> string;
  rect_InsideRect : BBox -> BBox -> bool;
  rect_IntersectsRect : BBox -> BBox -> bool;
  withinObjectShared :
    Object -> Object -> (unit -> res bool) -> (unit -> res bool) -> res bool;
  intersectsObjectShared :
    Object -> Object -> (unit -> res bool) -> (unit -> res bool) -> res bool;
  nearbyObjectShared : Object -> float -> float -> float -> res bool;
  opaque_Within : Caps -> Object -> bool;
  opaque_Intersects : Caps -> Object -> bool;
  BBoxesFromCenter : float -> float -> float -> BBox;
  BBox_Sparse : BBox -> Z -> list BBox;
  ObjectAuto : string -> Object + string;
  json_string : string -> string
}.

Definition dq : string := String "034"%char EmptyString.

Section Feature.
Context `{Externals}.

(** [IsGeometry]: feature.go, lines 172-175. *)
Definition IsGeometry (o : Object) : bool :=
  match o with
  | Opaque k => caps_IsGeometry k
  | Feature _ _ _ => true
  end.

Fixpoint CalculatedBBox (o : Object) : res BBox :=
  match o with
  | Opaque k => Ok (caps_CalculatedBBox k)
  | Feature g b _ =>
      match b with
      | Some bb => Ok bb
      | None => match g with Some g' => CalculatedBBox g' | None => Panic end
      end
  end.

Fixpoint PositionCount (o : Object) : res Z :=
  match o with
  | Opaque k => Ok (caps_PositionCount k)
  | Feature g b _ =>
      try r <- match g with Some g' => PositionCount g' | None => Panic end;
      match b with
      | Some _ => Ok (GoInt.add 2 r)
      | None => Ok r
      end
  end.

Definition Weight (o : Object) : res Z :=
  match o with
  | Opaque k => Ok (caps_Weight k)
  | Feature _ _ p =>
      try pc <- PositionCount o;
      let r := GoInt.mul pc sizeofPosition in
      Ok (GoInt.add r (GoInt.strlen p))
  end.

Fixpoint JSON (o : Object) : res string :=
  match o with
  | Opaque k => Ok (caps_JSON k)
  | Feature g b p =>
      try gj <- match g with Some g' => JSON g' | None => Panic end;
      Ok ("{" +:+ dq +:+ "type" +:+ dq +:+ ":" +:+ dq +:+ "Feature" +:+ dq
          +:+ "," +:+ dq +:+ "geometry" +:+ dq +:+ ":" +:+ gj
          +:+ BBox_write b
          +:+ (if decide (p = EmptyString) then EmptyString
               else "," +:+ dq +:+ "properties" +:+ dq +:+ ":" +:+ p)
          +:+ "}")
  end.

Definition MarshalJSON (o : Object) : res string :=
  match o with
  | Opaque k => Ok (caps_MarshalJSON k)
  | Feature _ _ _ => JSON o
  end.

Definition String_ (o : Object) : res string :=
  match o with
  | Opaque k => Ok (caps_String k)
  | Feature _ _ _ => JSON o
  end.

Fixpoint hasPositions (o : Object) : res bool :=
  match o with
  | Opaque k => Ok (caps_hasPositions k)
  | Feature g b _ =>
      match b with
      | Some _ => Ok true
      | None => match g with Some g' => hasPositions g' | None => Panic end
      end
  end.

Fixpoint WithinBBox (o : Object) (bbox : BBox) : res bool :=
  match o with
  | Opaque k => Ok (caps_WithinBBox k bbox)
  | Feature g b _ =>
      match b with
      | Some bb => Ok (rect_InsideRect bb bbox)
      | None => match g with Some g' => WithinBBox g' bbox | None => Panic end
      end
  end.

Fixpoint IntersectsBBox (o : Object) (bbox : BBox) : res bool :=
  match o with
  | Opaque k => Ok (caps_IntersectsBBox k bbox)
  | Feature g b _ =>
      match b with
      | Some bb => Ok (rect_IntersectsRect bb bbox)
      | None => match g with Some g' => IntersectsBBox g' bbox | None => Panic end
      end
  end.

Fixpoint Within (g : Object) (o : Object) : res bool :=
  match g with
  | Opaque k => Ok (opaque_Within k o)
  | Feature geom _ _ =>
      let inner := fun _ : unit =>
        match geom with Some g' => Within g' o | None => Panic end in
      withinObjectShared g o inner inner
  end.

Fixpoint Intersects (g : Object) (o : Object) : res bool :=
  match g with
  | Opaque k => Ok (opaque_Intersects k o)
  | Feature geom _ _ =>
      let inner := fun _ : unit =>
        match geom with Some g' => Intersects g' o | None => Panic end in
      intersectsObjectShared g o inner inner
  end.

Definition Nearby (o : Object) (center : Position) (meters : float) : res bool :=
  match o with
  | Opaque k => Ok (caps_Nearby k center meters)
  | Feature _ _ _ => nearbyObjectShared o (X center) (Y center) meters
  end.

Definition IsBBoxDefined (o : Object) : bool :=
  match o with
  | Opaque _ => false
  | Feature _ b _ => bool_decide (is_Some b)
  end.

(** [fillFeatureMap] up to the result of the switch on the type of the
    geometry member ([gjson.Get(json, geometry).Type]); the parsing of the
    member itself is [objectMap], outside feature.go. *)
Inductive gjsonType : Type := gjson_Null | gjson_JSON | gjson_Other.

Definition fillFeatureMap_geometry (t : gjsonType) (parsed : Object + string)
  : Object + string :=
  match t with
  | gjson_Null => inr "geometry member required"%string
  | gjson_JSON =>
      match parsed with
      | inl geom => inl (Feature (Some geom) None EmptyString)
      | inr e => inr e
      end
  | gjson_Other => inr "invalid geometry member"%string
  end.

End Feature.

End geojson.

(** ** package collection *)

Module collection.
Import geojson.

Definition idOrdered : Z := 0.
Definition valueOrdered : Z := 1.

Record itemT : Type := {
  item_id : string;
  item_object : Object;
  item_fields : list float
}.

Record Row : Type := { Id : string; Obj : string; Values : list float }.

Record Portable : Type := { Rows : list Row; Fields : option (list string) }.

(** The collection.  An [*itemT] is known by the id of the item: the trees
    hold pointers to the items of [items], which has one item per id.
    - [items]: the B-tree ordered by id;
    - [values]: the B-tree ordered by value then id, as the set of its
      keys [(object.String(), id)];
    - [index]: the spatial index, as the items it holds with the rectangle
      each was inserted under, in the order a search reports them;
    - [ghost_names] is ghost state: the field names [setField] was called
      with, oldest first.  No function reads it. *)
Record Collection : Type := {
  items : gmap string itemT;
  values : gset (string * string);
  index : list (string * BBox);
  fieldMap : gmap string Z;
  weight : Z;
  points : Z;
  objects : Z;
  nobjects : Z;
  ghost_names : list string
}.

Definition with_items (f : gmap string itemT -> gmap string itemT) (c : Collection) :=
  {| items := f (items c); values := values c; index := index c;
     fieldMap := fieldMap c; weight := weight c; points := points c;
     objects := objects c; nobjects := nobjects c; ghost_names := ghost_names c |}.
Definition with_values (f : gset (string * string) -> gset (string * string)) (c : Collection) :=
  {| items := items c; values := f (values c); index := index c;
     fieldMap := fieldMap c; weight := weight c; points := points c;
     objects := objects c; nobjects := nobjects c; ghost_names := ghost_names c |}.
Definition with_index (f : list (string * BBox) -> list (string * BBox)) (c : Collection) :=
  {| items := items c; values := values c; index := f (index c);
     fieldMap := fieldMap c; weight := weight c; points := points c;
     objects := objects c; nobjects := nobjects c; ghost_names := ghost_names c |}.
Definition with_fieldMap (f : gmap string Z -> gmap string Z) (c : Collection) :=
  {| items := items c; values := values c; index := index c;
     fieldMap := f (fieldMap c); weight := weight c; points := points c;
     objects := objects c; nobjects := nobjects c; ghost_names := ghost_names c |}.
Definition with_weight (f : Z -> Z) (c : Collection) :=
  {| items := items c; values := values c; index := index c;
     fieldMap := fieldMap c; weight := f (weight c); points := points c;
     objects := objects c; nobjects := nobjects c; ghost_names := ghost_names c |}.
Definition with_points (f : Z -> Z) (c : Collection) :=
  {| items := items c; values := values c; index := index c;
     fieldMap := fieldMap c; weight := weight c; points := f (points c);
     objects := objects c; nobjects := nobjects c; ghost_names := ghost_names c |}.
Definition with_objects (f : Z -> Z) (c : Collection) :=
  {| items := items c; values := values c; index := index c;
     fieldMap := fieldMap c; weight := weight c; points := points c;
     objects := f (objects c); nobjects := nobjects c; ghost_names := ghost_names c |}.
Definition with_nobjects (f : Z -> Z) (c : Collection) :=
  {| items := items c; values := values c; index := index c;
     fieldMap := fieldMap c; weight := weight c; points := points c;
     objects := objects c; nobjects := f (nobjects c); ghost_names := ghost_names c |}.
Definition with_ghost_names (f : list string -> list string) (c : Collection) :=
  {| items := items c; values := values c; index := index c;
     fieldMap := fieldMap c; weight := weight c; points := points c;
     objects := objects c; nobjects := nobjects c; ghost_names := f (ghost_names c) |}.

(** *** The monad of the methods: state, and a panic that keeps it *)

Definition M (A : Type) : Type := Collection -> res A * Collection.

Definition ret {A} (a : A) : M A := fun c => (Ok a, c).

Definition bind {A B} (m : M A) (k : A -> M B) : M B :=
  fun c =>
    match m c with
    | (Ok a, c') => k a c'
    | (Panic, c') => (Panic, c')
    end.

Definition panic {A} : M A := fun c => (Panic, c).
Definition lift {A} (r : res A) : M A := fun c => (r, c).
Definition get : M Collection := fun c => (Ok c, c).
Definition modify (f : Collection -> Collection) : M unit := fun c => (Ok tt, f c).

Notation "x <- m ;; k" := (bind m (fun x => k))
  (at level 100, m at next level, k at level 200, right associativity).
Notation "m ;; k" := (bind m (fun _ => k))
  (at level 100, k at level 200, right associativity).

Section Methods.
Context `{Externals}.

(** [itemT.Less], lines 23-40. *)
Definition Less (i item : itemT) (ctx : Z) : res bool :=
  if decide (ctx = idOrdered) then Ok (String.ltb (item_id i) (item_id item))
  else if decide (ctx = valueOrdered) then
    try i1 <- String_ (item_object i);
    try i2 <- String_ (item_object item);
    if String.ltb i1 i2 then Ok true
    else if String.ltb i2 i1 then Ok false
    else Ok (String.ltb (item_id i) (item_id item))
  else Ok false.

(** [itemT.Rect], lines 42-45. *)
Definition Rect (i : itemT) : res (float * float * float * float * float * float) :=
  try bbox <- CalculatedBBox (item_object i);
  Ok (X (Min bbox), Y (Min bbox), Zc (Min bbox), X (Max bbox), Y (Max bbox), Zc (Max bbox)).

(** Modelled from the spec: the ordered tree B of section 4.B (package
    btree is not in the sources): point lookup, delete and insert by id. *)
Definition items_Get (id : string) : M (option itemT) :=
  fun c => (Ok (items c !! id), c).

Definition items_Delete (id : string) : M (option itemT) :=
  fun c => (Ok (items c !! id), with_items (delete id) c).

Definition items_ReplaceOrInsert (item : itemT) : M unit :=
  modify (with_items (<[item_id item := item]>)).

(** Modelled from the spec: the ordered tree C of section 4.C, keyed by
    [(object.String(), id)]; the key is what [Less] compares under
    [valueOrdered]. *)
Definition values_key (item : itemT) : res (string * string) :=
  try s <- String_ (item_object item);
  Ok (s, item_id item).

Definition values_ReplaceOrInsert (item : itemT) : M unit :=
  k <- lift (values_key item) ;;
  modify (with_values (fun v => {[ k ]} ∪ v)).

Definition values_Delete (item : itemT) : M unit :=
  k <- lift (values_key item) ;;
  modify (with_values (fun v => v ∖ {[ k ]})).

(** Modelled from the spec: the spatial index D of section 4.D (package
    index is not in the sources), keyed by the rectangle of the item:
    [Insert] asks the item for its [Rect]. *)
Definition index_Insert (item : itemT) : M unit :=
  r <- lift (Rect item) ;;
  let '(minX, minY, minZ, maxX, maxY, maxZ) := r in
  let bbox := {| Min := {| X := minX; Y := minY; Zc := minZ |};
                 Max := {| X := maxX; Y := maxY; Zc := maxZ |} |} in
  modify (with_index (fun ix => ix ++ [(item_id item, bbox)])).

Definition index_Remove (item : itemT) : M unit :=
  modify (with_index (filter (fun e => e.1 ≠ item_id item))).

(** [New], lines 132-140. *)
Definition New : Collection :=
  {| items := ∅; values := ∅; index := []; fieldMap := ∅;
     weight := 0; points := 0; objects := 0; nobjects := 0; ghost_names := [] |}.

(** [Count], [PointCount], [TotalWeight], lines 143-155. *)
Definition Count (c : Collection) : Z := GoInt.add (objects c) (nobjects c).
Definition PointCount (c : Collection) : Z := points c.
Definition TotalWeight (c : Collection) : Z := weight c.

(** An [*itemT] held by the caller: reading it, and assigning its member
    [fields]. *)
Definition deref (h : string) : M itemT :=
  fun c => match items c !! h with
           | Some it => (Ok it, c)
           | None => (Panic, c)
           end.

Definition set_fields (h : string) (fs : list float) : M unit :=
  modify (with_items (alter (fun it =>
    {| item_id := item_id it; item_object := item_object it; item_fields := fs |}) h)).

(** [remove], lines 190-207. *)
Definition remove (id : string) : M (option itemT) :=
  i <- items_Delete id ;;
  match i with
  | None => ret None
  | Some item =>
      (if IsGeometry (item_object item)
       then index_Remove item ;; modify (with_objects (fun n => GoInt.sub n 1))
       else values_Delete item ;; modify (with_nobjects (fun n => GoInt.sub n 1))) ;;
      modify (with_weight (fun w => GoInt.sub w (GoInt.mul (GoInt.len (item_fields item)) 8))) ;;
      ow <- lift (Weight (item_object item)) ;;
      modify (with_weight (fun w => GoInt.sub w (GoInt.add ow (GoInt.strlen (item_id item))))) ;;
      pc <- lift (PositionCount (item_object item)) ;;
      modify (with_points (fun p => GoInt.sub p pc)) ;;
      ret (Some item)
  end.

(** [insert], lines 209-222.  The result is the pointer to the new item. *)
Definition insert (id : string) (obj : Object) : M string :=
  let item := {| item_id := id; item_object := obj; item_fields := [] |} in
  (if IsGeometry obj
   then index_Insert item ;; modify (with_objects (fun n => GoInt.add n 1))
   else values_ReplaceOrInsert item ;; modify (with_nobjects (fun n => GoInt.add n 1))) ;;
  items_ReplaceOrInsert item ;;
  ow <- lift (Weight obj) ;;
  modify (with_weight (fun w => GoInt.add w (GoInt.add ow (GoInt.strlen id)))) ;;
  pc <- lift (PositionCount obj) ;;
  modify (with_points (fun p => GoInt.add p pc)) ;;
  ret id.

(** The loop of [setField], lines 269-271: [n] bounds the number of
    iterations. *)
Fixpoint grow (n : nat) (idx : Z) (fs : list float) : list float :=
  match n with
  | O => fs
  | S n' => if idx >=? GoInt.len fs then grow n' idx (fs ++ [0%float]) else fs
  end.

(** [setField], lines 262-276. *)
Definition setField (item : string) (field : string) (value : float) : M bool :=
  modify (with_ghost_names (fun l => l ++ [field])) ;;
  c <- get ;;
  idx <- match fieldMap c !! field with
         | Some idx => ret idx
         | None =>
             let idx := Z.of_nat (size (fieldMap c)) in
             modify (with_fieldMap (<[field := idx]>)) ;; ret idx
         end ;;
  it <- deref item ;;
  modify (with_weight (fun w => GoInt.sub w (GoInt.mul (GoInt.len (item_fields it)) 8))) ;;
  let fs := grow (Z.to_nat (idx + 1 - GoInt.len (item_fields it))) idx (item_fields it) in
  set_fields item fs ;;
  modify (with_weight (fun w => GoInt.add w (GoInt.mul (GoInt.len fs) 8))) ;;
  if 0 <=? idx then
    match fs !! Z.to_nat idx with
    | Some ovalue =>
        set_fields item (<[Z.to_nat idx := value]> fs) ;;
        ret (negb (ovalue =? value)%float)
    | None => panic
    end
  else panic.

(** The loop of [ReplaceOrInsert], lines 183-185. *)
Fixpoint set_each (nitem : string) (fields : list string) (values : list float) (i : nat)
  : M unit :=
  match fields with
  | [] => ret tt
  | field :: rest =>
      match values !! i with
      | Some v => setField nitem field v ;; set_each nitem rest values (S i)
      | None => panic
      end
  end.

(** [ReplaceOrInsert], lines 166-188. *)
Definition ReplaceOrInsert (id : string) (obj : Object)
    (fields : option (list string)) (values : list float)
  : M (option Object * list float * list float) :=
  oldItem <- remove id ;;
  nitem <- insert id obj ;;
  old <- match oldItem with
         | Some o =>
             set_fields nitem (item_fields o) ;;
             modify (with_weight (fun w => GoInt.add w (GoInt.mul (GoInt.len (item_fields o)) 8))) ;;
             ret (Some (item_object o), item_fields o)
         | None => ret (None, [])
         end ;;
  (if bool_decide (fields = None) && (0 <? GoInt.len values)
   then
     it <- deref nitem ;;
     modify (with_weight (fun w => GoInt.sub w (GoInt.mul (GoInt.len (item_fields it)) 8))) ;;
     set_fields nitem values ;;
     modify (with_weight (fun w => GoInt.add w (GoInt.mul (GoInt.len values) 8)))
   else set_each nitem (default [] fields) values O) ;;
  it <- deref nitem ;;
  ret (old.1, old.2, item_fields it).

(** [Remove], lines 226-232. *)
Definition Remove (id : string) : M (option Object * list float * bool) :=
  item <- remove id ;;
  match item with
  | None => ret (None, [], false)
  | Some it => ret (Some (item_object it), item_fields it, true)
  end.

(** [get] and [Get], lines 234-247. *)
Definition Get (id : string) : M (option Object * list float * bool) :=
  i <- items_Get id ;;
  match i with
  | None => ret (None, [], false)
  | Some it => ret (Some (item_object it), item_fields it, true)
  end.

(** [SetField], lines 251-260. *)
Definition SetField (id field : string) (value : float)
  : M (option Object * list float * bool * bool) :=
  i <- items_Get id ;;
  match i with
  | None => ret (None, [], false, false)
  | Some _ =>
      updated <- setField id field value ;;
      it <- deref id ;;
      ret (Some (item_object it), item_fields it, updated, true)
  end.

(** [FieldMap] and [FieldArr], lines 279-290.  The loop ranges over the
    map in an order Go leaves open; the array it fills does not depend on
    the order when no two names share a slot. *)
Definition FieldMap (c : Collection) : gmap string Z := fieldMap c.

Definition FieldArr (c : Collection) : res (list string) :=
  foldr (fun '(field, i) acc =>
           try arr <- acc;
           if (0 <=? i) && (i <? GoInt.len arr)
           then Ok (<[Z.to_nat i := field]> arr) else Panic)
        (Ok (replicate (size (fieldMap c)) EmptyString))
        (map_to_list (fieldMap c)).

(** *** Scans *)

(** Modelled from the spec: [Ascend] and [Descend] of the ordered tree B
    (section 4.B) call the iterator on the items in the order of their
    ids, until it returns false.  [ascending] lists the items by
    increasing id (the order of [Less] under [idOrdered]). *)
Fixpoint sorted_insert (item : itemT) (l : list itemT) : list itemT :=
  match l with
  | [] => [item]
  | x :: rest =>
      if String.ltb (item_id x) (item_id item) then x :: sorted_insert item rest
      else item :: l
  end.

Definition ascending (c : Collection) : list itemT :=
  foldr sorted_insert [] (map snd (map_to_list (items c))).

Fixpoint walk {T} (l : list itemT) (iter : itemT -> T -> res (bool * T)) (t : T) : res T :=
  match l with
  | [] => Ok t
  | item :: rest =>
      try r <- iter item t;
      if r.1 then walk rest iter r.2 else Ok r.2
  end.

(** [Scan], lines 293-312.  The iterator is a closure: [S] is the type of
    what it captures.  [i] counts items of the tree and cannot wrap. *)
Definition Scan {S} (cursor : N) (desc : bool)
    (iterator : string -> Object -> list float -> S -> res (bool * S))
    (c : Collection) (s : S) : res (N * S) :=
  let iter := fun (item : itemT) (st : N * bool * S) =>
    let '(i, active, s) := st in
    try r <- (if (cursor <=? i)%N
              then iterator (item_id item) (item_object item) (item_fields item) s
              else Ok (active, s));
    Ok (r.1, ((i + 1)%N, r.1, r.2)) in
  try st <- walk (if desc then rev (ascending c) else ascending c) iter (0%N, true, s);
  Ok (st.1.1, st.2).

(** *** The snapshot codec *)

(** Modelled from the documentation of encoding/json (not in the
    sources): the bytes handed to [UnmarshalJSON] are known by what
    [json.Unmarshal] makes of them.
    - [nil_bytes]: the nil slice;
    - [empty_bytes]: a slice of length 0;
    - [invalid_text e]: bytes [json.Unmarshal] rejects with error [e]
      (malformed text, a member of the wrong type);
    - [text_of p]: the text of a JSON object that [json.Unmarshal] reads as
      [p]: [Fields p] is [None] when the member fields is missing or null;
      a missing member rows is [[]]. *)
Inductive document : Type :=
| nil_bytes
| empty_bytes
| invalid_text (e : string)
| text_of (p : Portable).

(** [json.Marshal] of a [Portable]: an error on a float that is not
    finite; strings are written as valid UTF-8 ([json_string]), byte
    slices in base64, floats in their shortest exact form. *)
Definition json_Marshal (p : Portable) : document + string :=
  if forallb (fun r => forallb is_finite (Values r)) (Rows p)
  then inl (text_of
    {| Rows := map (fun r => {| Id := json_string (Id r); Obj := Obj r; Values := Values r |})
                   (Rows p);
       Fields := option_map (map json_string) (Fields p) |})
  else inr "json: unsupported value"%string.

Definition json_Unmarshal (b : document) : Portable + string :=
  match b with
  | nil_bytes | empty_bytes => inr "unexpected end of JSON input"%string
  | invalid_text e => inr e
  | text_of p => inl p
  end.

(** [MarshalJSON], lines 63-91. *)
Definition MarshalJSON (c : Collection) : res (document + string) :=
  let colCount := Count c in
  if colCount <? 0 then Panic else
  let rows := replicate (Z.to_nat colCount)
                {| Id := EmptyString; Obj := EmptyString; Values := [] |} in
  try fields <- FieldArr c;
  try r <- Scan 0%N false
             (fun id obj values (st : Z * list Row) =>
                let '(i, rows) := st in
                if i <? colCount then
                  try objBytes <- geojson.MarshalJSON obj;
                  Ok (true, (GoInt.add i 1,
                             <[Z.to_nat i := {| Id := id; Obj := objBytes; Values := values |}]> rows))
                else Ok (false, (i, rows)))
             c (0, rows);
  Ok (json_Marshal {| Rows := r.2.2; Fields := Some fields |}).

(** The loop of [UnmarshalJSON], lines 106-112. *)
Fixpoint decode_rows (rows : list Row) (fields : option (list string)) : M (option string) :=
  match rows with
  | [] => ret None
  | r :: rest =>
      match ObjectAuto (Obj r) with
      | inr err => ret (Some err)
      | inl obj =>
          ReplaceOrInsert (Id r) obj fields (Values r) ;;
          decode_rows rest fields
      end
  end.

(** [UnmarshalJSON], lines 93-115.  The result is the error, [None] for
    nil. *)
Definition UnmarshalJSON (b : document) : M (option string) :=
  match b with
  | nil_bytes => ret (Some "No bytes were input"%string)
  | _ =>
      match json_Unmarshal b with
      | inr err => ret (Some err)
      | inl portable => decode_rows (Rows portable) (Fields portable)
      end
  end.

End Methods.

(** *** Spatial queries *)

(** Ghost state of a query: [trace] records, oldest first, the calls made
    on the spatial index and on the iterator of the caller.  No function
    reads it.  [vis] is what the iterator, a closure, captures. *)
Inductive event : Type :=
| EvSearch (cursor : N) (swLat swLon neLat neLon minZ maxZ : float)
| EvVisit (id : string) (obj : Object) (fields : list float) (ret : bool).

Record Q (S : Type) : Type := { vis : S; trace : list event }.
Arguments vis {S} q.
Arguments trace {S} q.

Definition log {S} (e : event) (q : Q S) : Q S :=
  {| vis := vis q; trace := trace q ++ [e] |}.

Definition toBBox (minX minY minZ maxX maxY maxZ : float) : BBox :=
  {| Min := {| X := minX; Y := minY; Zc := minZ |};
     Max := {| X := maxX; Y := maxY; Zc := maxZ |} |}.

Definition withZ (bbox : BBox) (minZ maxZ : float) : BBox :=
  toBBox (X (Min bbox)) (Y (Min bbox)) minZ (X (Max bbox)) (Y (Max bbox)) maxZ.

Section Queries.
Context `{Externals}.
Context {S : Type}.

(** The iterator of the caller, called and recorded. *)
Definition call (iterator : string -> Object -> list float -> S -> bool * S)
    (id : string) (obj : Object) (fields : list float) (q : Q S) : bool * Q S :=
  let r := iterator id obj fields (vis q) in
  (r.1, log (EvVisit id obj fields r.1) {| vis := r.2; trace := trace q |}).

(** Modelled from the spec: [Search] of the spatial index D (section
    4.D).  The items whose rectangle meets the box are visited in the order
    of the index; the first [cursor] of them are skipped; the walk stops
    when the iterator returns false; the result is the number of items
    passed. *)
Definition meets (r : BBox) (swLat swLon neLat neLon minZ maxZ : float) : bool :=
  (X (Min r) <=? neLon)%float && (swLon <=? X (Max r))%float &&
  (Y (Min r) <=? neLat)%float && (swLat <=? Y (Max r))%float &&
  (Zc (Min r) <=? maxZ)%float && (minZ <=? Zc (Max r))%float.

Fixpoint search_walk (l : list (string * BBox)) (cursor : N) (i : N)
    (iterator : string -> Q S -> res (bool * Q S)) (q : Q S) : res (N * Q S) :=
  match l with
  | [] => Ok (i, q)
  | e :: rest =>
      if (cursor <=? i)%N then
        try r <- iterator e.1 q;
        if r.1 then search_walk rest cursor (i + 1)%N iterator r.2
        else Ok ((i + 1)%N, r.2)
      else search_walk rest cursor (i + 1)%N iterator q
  end.

Definition index_Search (cursor : N) (swLat swLon neLat neLon minZ maxZ : float)
    (iterator : string -> Q S -> res (bool * Q S)) (c : Collection) (q : Q S)
  : res (N * Q S) :=
  search_walk
    (filter (fun e => meets e.2 swLat swLon neLat neLon minZ maxZ = true) (index c))
    cursor 0%N iterator
    (log (EvSearch cursor swLat swLon neLat neLon minZ maxZ) q).

(** [geoSearch], lines 403-415. *)
Definition geoSearch (cursor : N) (bbox : BBox)
    (iterator : string -> Object -> list float -> Q S -> res (bool * Q S))
    (c : Collection) (q : Q S) : res (N * Q S) :=
  index_Search cursor (Y (Min bbox)) (X (Min bbox)) (Y (Max bbox)) (X (Max bbox))
    (Zc (Min bbox)) (Zc (Max bbox))
    (fun item q =>
       match items c !! item with
       | None => Ok (true, q)
       | Some iitm =>
           try r <- iterator (item_id iitm) (item_object iitm) (item_fields iitm) q;
           if negb r.1 then Ok (false, r.2) else Ok (true, r.2)
       end)
    c q.

(** [for _, bbox := range bboxes]. *)
Fixpoint range_bboxes (bboxes : list BBox) (body : BBox -> Q S -> res (Q S)) (q : Q S)
  : res (Q S) :=
  match bboxes with
  | [] => Ok q
  | bbox :: rest => try q' <- body bbox q; range_bboxes rest body q'
  end.

(** The callbacks handed to [geoSearch]: under sparse > 0 the search of the
    tile stops when the iterator returns true; otherwise the result of the
    iterator is passed on. *)
Definition sparse_cb (test : Object -> res bool)
    (iterator : string -> Object -> list float -> S -> bool * S)
    (id : string) (o : Object) (fields : list float) (q : Q S) : res (bool * Q S) :=
  try b <- test o;
  if b then
    let r := call iterator id o fields q in
    if r.1 then Ok (false, r.2) else Ok (true, r.2)
  else Ok (true, q).

Definition plain_cb (test : Object -> res bool)
    (iterator : string -> Object -> list float -> S -> bool * S)
    (id : string) (o : Object) (fields : list float) (q : Q S) : res (bool * Q S) :=
  try b <- test o;
  if b then Ok (call iterator id o fields q) else Ok (true, q).

(** [Nearby], lines 418-443. *)
Definition Nearby (cursor : N) (sparse : Z) (lat lon meters minZ maxZ : float)
    (iterator : string -> Object -> list float -> S -> bool * S)
    (c : Collection) (q : Q S) : res (N * Q S) :=
  let center := {| X := lon; Y := lat; Zc := 0%float |} in
  let bbox := BBoxesFromCenter lat lon meters in
  let bboxes := BBox_Sparse bbox sparse in
  if 0 <? sparse then
    try q' <- range_bboxes bboxes
                (fun bbox q =>
                   let bbox := withZ bbox minZ maxZ in
                   try r <- geoSearch cursor bbox
                              (sparse_cb (fun obj => geojson.Nearby obj center meters) iterator)
                              c q;
                   Ok r.2)
                q;
    Ok (0%N, q')
  else
    let bbox := withZ bbox minZ maxZ in
    geoSearch cursor bbox
      (plain_cb (fun obj => geojson.Nearby obj center meters) iterator) c q.

(** [Within], lines 446-491. *)
Definition Within (cursor : N) (sparse : Z) (obj : option Object)
    (minLat minLon maxLat maxLon minZ maxZ : float)
    (iterator : string -> Object -> list float -> S -> bool * S)
    (c : Collection) (q : Q S) : res (N * Q S) :=
  try bbox <- match obj with
              | Some obj => CalculatedBBox obj
              | None => Ok (toBBox minLon minLat minZ maxLon maxLat maxZ)
              end;
  let bboxes := BBox_Sparse bbox sparse in
  if 0 <? sparse then
    try q' <- range_bboxes bboxes
                (fun bbox q =>
                   try q1 <- match obj with
                             | Some obj =>
                                 try r <- geoSearch cursor bbox
                                            (sparse_cb (fun o => geojson.Within o obj) iterator)
                                            c q;
                                 Ok r.2
                             | None => Ok q
                             end;
                   try r <- geoSearch cursor bbox
                              (sparse_cb (fun o => WithinBBox o bbox) iterator) c q1;
                   Ok r.2)
                q;
    Ok (0%N, q')
  else
    match obj with
    | Some obj =>
        geoSearch cursor bbox (plain_cb (fun o => geojson.Within o obj) iterator) c q
    | None =>
        geoSearch cursor bbox (plain_cb (fun o => WithinBBox o bbox) iterator) c q
    end.

(** The two nested loops of [Intersects], lines 506-513.  A loop over
    floats need not end: [fuel] bounds the number of iterations of each
    loop, and the result is [None] when it is used up. *)
Fixpoint tiles_x (fuel : nat) (x y xpart ypart maxX minZ maxZ : float)
    (bboxes : list BBox) : option (list BBox) :=
  match fuel with
  | O => None
  | Datatypes.S fuel' =>
      if (x <? maxX)%float then
        tiles_x fuel' (x + xpart)%float y xpart ypart maxX minZ maxZ
          (bboxes ++ [toBBox x y minZ (x + xpart)%float (y + ypart)%float maxZ])
      else Some bboxes
  end.

Fixpoint tiles_y (fuel : nat) (y xpart ypart minX maxX maxY minZ maxZ : float)
    (bboxes : list BBox) : option (list BBox) :=
  match fuel with
  | O => None
  | Datatypes.S fuel' =>
      if (y <? maxY)%float then
        match tiles_x fuel minX y xpart ypart maxX minZ maxZ bboxes with
        | Some bboxes' =>
            tiles_y fuel' (y + ypart)%float xpart ypart minX maxX maxY minZ maxZ bboxes'
        | None => None
        end
      else Some bboxes
  end.

(** Lines 503-513: [split := 1 << sparse] is an [int]. *)
Definition Intersects_tiles (fuel : nat) (sparse : Z) (bbox : BBox) (minZ maxZ : float)
  : option (list BBox) :=
  let split := GoInt.wrap (Z.shiftl 1 sparse) in
  let xpart := ((X (Max bbox) - X (Min bbox)) / GoInt.float64 split)%float in
  let ypart := ((Y (Max bbox) - Y (Min bbox)) / GoInt.float64 split)%float in
  tiles_y fuel (Y (Min bbox)) xpart ypart (X (Min bbox)) (X (Max bbox)) (Y (Max bbox))
    minZ maxZ [].

(** [Intersects], lines 494-550; the names and the order of the
    parameters are those of the source ([maxZ] before [minZ]).  The
    result is [None] when the enumeration of the tiles uses up [fuel]. *)
Definition Intersects (fuel : nat) (cursor : N) (sparse : Z) (obj : option Object)
    (minLat minLon maxLat maxLon maxZ minZ : float)
    (iterator : string -> Object -> list float -> S -> bool * S)
    (c : Collection) (q : Q S) : option (res (N * Q S)) :=
  match (match obj with
         | Some obj => CalculatedBBox obj
         | None => Ok (toBBox minLon minLat minZ maxLon maxLat maxZ)
         end) with
  | Panic => Some Panic
  | Ok bbox =>
      if 0 <? sparse then
        match Intersects_tiles fuel sparse bbox minZ maxZ with
        | None => None
        | Some bboxes =>
            Some (
              try q' <- range_bboxes bboxes
                (fun bbox q =>
                   try q1 <- match obj with
                             | Some obj =>
                                 try r <- geoSearch cursor bbox
                                            (sparse_cb (fun o => geojson.Intersects o obj) iterator)
                                            c q;
                                 Ok r.2
                             | None => Ok q
                             end;
                   try r <- geoSearch cursor bbox
                              (sparse_cb (fun o => IntersectsBBox o bbox) iterator) c q1;
                   Ok r.2)
                q;
              Ok (0%N, q'))
        end
      else
        Some (match obj with
              | Some obj =>
                  geoSearch cursor bbox (plain_cb (fun o => geojson.Intersects o obj) iterator) c q
              | None =>
                  geoSearch cursor bbox (plain_cb (fun o => IntersectsBBox o bbox) iterator) c q
              end)
  end.

End Queries.

(** *** What the collection is meant to maintain *)

Section Spec.
Context `{Externals}.

(** The states a caller can bring a collection to: [New], then public
    mutations that return. *)
Inductive step : Collection -> Collection -> Prop :=
| step_ReplaceOrInsert c id obj fields values r c' :
    ReplaceOrInsert id obj fields values c = (Ok r, c') -> step c c'
| step_Remove c id r c' :
    Remove id c = (Ok r, c') -> step c c'
| step_SetField c id field value r c' :
    SetField id field value c = (Ok r, c') -> step c c'
| step_UnmarshalJSON c b r c' :
    UnmarshalJSON b c = (Ok r, c') -> step c c'.

Inductive reachable : Collection -> Prop :=
| reach_New : reachable New
| reach_step c c' : reachable c -> step c c' -> reachable c'.

(** The sums recomputed from the stored items. *)
Definition object_weight (o : Object) : Z :=
  match Weight o with Ok w => w | Panic => 0 end.

Definition object_points (o : Object) : Z :=
  match PositionCount o with Ok n => n | Panic => 0 end.

Definition item_weight (it : itemT) : Z :=
  object_weight (item_object it) + GoInt.strlen (item_id it)
  + 8 * GoInt.len (item_fields it).

Definition item_points (it : itemT) : Z := object_points (item_object it).

Definition sum_items (f : itemT -> Z) (m : gmap string itemT) : Z :=
  map_fold (fun _ it acc => f it + acc) 0 m.

(** [Weight] and [PositionCount] return on the object. *)
Definition measurable (o : Object) : Prop :=
  (exists w, Weight o = Ok w) /\ (exists n, PositionCount o = Ok n).

(** Membership in the spatial index D and in the value index C. *)
Definition in_index (id : string) (c : Collection) : Prop := id ∈ (index c).*1.

Definition in_values (id : string) (c : Collection) : Prop :=
  exists s, (s, id) ∈ values c.

(** The distinct names of a sequence, in the order of their first
    appearance. *)
Definition first_seen (l : list string) : list string :=
  fold_left (fun acc n => if bool_decide (n ∈ acc) then acc else acc ++ [n]) l [].

(** The Feature without geometry of the specification, read from its
    words (feature.go has no such case): a Feature whose member Geometry is
    nil, or is a geometry that holds no position. *)
Definition feature_without_geometry (o : Object) : Prop :=
  match o with
  | Feature None _ _ => True
  | Feature (Some g) _ _ => hasPositions g = Ok false
  | Opaque _ => False
  end.










Definition summary (tr : list event) : list (N + string * bool) :=
  map (fun e => match e with
                | EvSearch k _ _ _ _ _ _ => inl k
                | EvVisit id _ _ r => inr (id, r)
                end) tr.




(** The invariant of the reachable states. *)
Record Inv (c : Collection) : Prop := {
  inv_id : forall id it, items c !! id = Some it -> item_id it = id;
  inv_measurable : forall id it, items c !! id = Some it -> measurable (item_object it);
  inv_count : GoInt.eq64 (objects c + nobjects c) (Z.of_nat (size (items c)));
  inv_points : GoInt.eq64 (points c) (sum_items item_points (items c));
  inv_points_range : GoInt.in_range (points c);
  inv_weight : GoInt.eq64 (weight c) (sum_items item_weight (items c));
  inv_weight_range : GoInt.in_range (weight c);
  inv_index : forall id, in_index id c <->
    exists it, items c !! id = Some it /\ IsGeometry (item_object it) = true;
  inv_values : forall s id, (s, id) ∈ values c <->
    exists it, items c !! id = Some it /\ IsGeometry (item_object it) = false
               /\ String_ (item_object it) = Ok s;
  inv_keyed : forall id it, items c !! id = Some it ->
    IsGeometry (item_object it) = false -> exists s, String_ (item_object it) = Ok s;
  inv_slots : forall name i, fieldMap c !! name = Some i <->
    0 <= i /\ first_seen (ghost_names c) !! Z.to_nat i = Some name;
  inv_size : size (fieldMap c) = length (first_seen (ghost_names c))
}.

End Spec.

End collection.

(** ** A small geometry layer and some collections, for the examples *)

Module examples.
Import geojson collection.

Definition pos (x y : float) : Position := {| X := x; Y := y; Zc := 0%float |}.

Definition box (minX minY maxX maxY : float) : BBox :=
  {| Min := pos minX minY; Max := pos maxX maxY |}.

Definition inside (x y : float) (b : BBox) : bool :=
  (X (Min b) <=? x)%float && (x <=? X (Max b))%float &&
  (Y (Min b) <=? y)%float && (y <=? Y (Max b))%float.

(** A [geojson.String]: the one kind of object that is not a geometry. *)
Definition str (s : string) : Object :=
  Opaque {| caps_IsGeometry := false; caps_CalculatedBBox := box 0 0 0 0;
            caps_PositionCount := 0; caps_Weight := GoInt.strlen s;
            caps_JSON := s; caps_String := s; caps_MarshalJSON := s;
            caps_hasPositions := false;
            caps_WithinBBox := fun _ => false; caps_IntersectsBBox := fun _ => false;
            caps_Nearby := fun _ _ => false |}.

(** A point; [name] stands for its JSON text. *)
Definition point (name : string) (x y : float) : Object :=
  Opaque {| caps_IsGeometry := true; caps_CalculatedBBox := box x y x y;
            caps_PositionCount := 1; caps_Weight := 24;
            caps_JSON := name; caps_String := name; caps_MarshalJSON := name;
            caps_hasPositions := true;
            caps_WithinBBox := inside x y; caps_IntersectsBBox := inside x y;
            caps_Nearby := fun c m =>
              (abs (x - X c) <=? m)%float && (abs (y - Y c) <=? m)%float |}.

(** A geometry that holds no position (an empty collection of
    geometries). *)
Definition no_positions : Object :=
  Opaque {| caps_IsGeometry := true; caps_CalculatedBBox := box 0 0 0 0;
            caps_PositionCount := 0; caps_Weight := 0;
            caps_JSON := "empty"; caps_String := "empty"; caps_MarshalJSON := "empty";
            caps_hasPositions := false;
            caps_WithinBBox := fun _ => false; caps_IntersectsBBox := fun _ => false;
            caps_Nearby := fun _ _ => false |}.

(** The disc of radius 1 around (1, 1): its bounding box is the square
    from (0, 0) to (2, 2). *)
Definition disc : Object :=
  Opaque {| caps_IsGeometry := true; caps_CalculatedBBox := box 0 0 2 2;
            caps_PositionCount := 1; caps_Weight := 24;
            caps_JSON := "disc"; caps_String := "disc"; caps_MarshalJSON := "disc";
            caps_hasPositions := true;
            caps_WithinBBox := fun b => inside 0 0 b && inside 2 2 b;
            caps_IntersectsBBox := fun _ => true;
            caps_Nearby := fun _ _ => false |}.

Definition in_disc (k : Caps) : bool :=
  let x := X (Min (caps_CalculatedBBox k)) in
  let y := Y (Min (caps_CalculatedBBox k)) in
  ((x - 1) * (x - 1) + (y - 1) * (y - 1) <=? 1)%float.

Definition toy_Within (k : Caps) (o : Object) : bool :=
  match o with
  | Opaque t =>
      if String.eqb (caps_String t) "disc" then in_disc k
      else caps_WithinBBox k (caps_CalculatedBBox t)
  | Feature _ (Some b) _ => caps_WithinBBox k b
  | Feature _ None _ => false
  end.

(** The four quarters of a box, for any level above 0. *)
Definition quarters (b : BBox) (sparse : Z) : list BBox :=
  if 0 <? sparse then
    let mx := ((X (Min b) + X (Max b)) / 2)%float in
    let my := ((Y (Min b) + Y (Max b)) / 2)%float in
    [ toBBox (X (Min b)) (Y (Min b)) (Zc (Min b)) mx my (Zc (Max b));
      toBBox mx (Y (Min b)) (Zc (Min b)) (X (Max b)) my (Zc (Max b));
      toBBox (X (Min b)) my (Zc (Min b)) mx (Y (Max b)) (Zc (Max b));
      toBBox mx my (Zc (Min b)) (X (Max b)) (Y (Max b)) (Zc (Max b)) ]
  else [b].

Definition parse (s : string) : Object + string :=
  if String.eqb s "A" then inl (point "A" 0.5 0.5)
  else if String.eqb s "B" then inl (point "B" 1.5 1.5)
  else inr "invalid"%string.

#[export] Instance toy : Externals := {|
  sizeofPosition := 24;
  BBox_write := fun _ => EmptyString;
  rect_InsideRect := fun a b => inside (X (Min a)) (Y (Min a)) b && inside (X (Max a)) (Y (Max a)) b;
  rect_IntersectsRect := fun a b =>
    (X (Min a) <=? X (Max b))%float && (X (Min b) <=? X (Max a))%float &&
    (Y (Min a) <=? Y (Max b))%float && (Y (Min b) <=? Y (Max a))%float;
  withinObjectShared := fun _ _ inner _ => inner tt;
  intersectsObjectShared := fun _ _ inner _ => inner tt;
  nearbyObjectShared := fun _ _ _ _ => Ok false;
  opaque_Within := toy_Within;
  opaque_Intersects := toy_Within;
  BBoxesFromCenter := fun lat lon meters =>
    box (lon - meters) (lat - meters) (lon + meters) (lat + meters);
  BBox_Sparse := quarters;
  ObjectAuto := parse;
  json_string := fun s => s
|}.

Definition after {A} (m : M A) (c : Collection) : Collection := (m c).2.

(** Two Features without geometry: one around a geometry without
    positions, one with a nil Geometry and a bbox of its own. *)
Definition bare_feature : Object := Feature (Some no_positions) None EmptyString.

Definition nil_feature : Object := Feature None (Some (box 0 0 1 1)) EmptyString.


(** Points A in the lower left quarter and B in the upper right quarter of
    the square from (0, 0) to (2, 2). *)
Definition two_points : Collection :=
  after (ReplaceOrInsert "B" (point "B" 1.5 1.5) None [])
    (after (ReplaceOrInsert "A" (point "A" 0.5 0.5) None []) New).

(** A has the field speed, B has no field. *)
Definition one_field : Collection :=
  after (SetField "A" "speed" 10%float) two_points.

(** A with the values 1 and 2 set directly, and no name in the
    registry. *)
Definition direct_values : Collection :=
  after (ReplaceOrInsert "A" (point "A" 0.5 0.5) None [1%float; 2%float]) New.

(** A point in the corner of the square, outside the disc. *)
Definition corner : Collection :=
  after (ReplaceOrInsert "P" (point "P" 0.125 0.125) None []) New.

(** The iterator that takes every item and counts them. *)
Definition take_all (id : string) (o : Object) (fields : list float) (n : nat) : bool * nat :=
  (true, Datatypes.S n).

Definition q0 : Q nat := {| vis := O; trace := [] |}.

End examples.

(** * Proofs *)

(** ** Go integers as 64-bit words *)

Module GoIntFacts.
Import GoInt.

Infix "≡64" := eq64 (at level 70).

#[global] Instance eq64_equiv : Equivalence eq64.
Proof. unfold eq64. split; red; intros; congruence. Qed.

#[global] Instance eq64_add : Proper (eq64 ==> eq64 ==> eq64) Z.add.
Proof.
  unfold eq64. intros a b E c d F.
  rewrite (Z.add_mod a), (Z.add_mod b), E, F by lia. reflexivity.
Qed.

#[global] Instance eq64_sub : Proper (eq64 ==> eq64 ==> eq64) Z.sub.
Proof.
  unfold eq64. intros a b E c d F.
  rewrite (Zminus_mod a), (Zminus_mod b), E, F by lia. reflexivity.
Qed.

#[global] Instance eq64_mul : Proper (eq64 ==> eq64 ==> eq64) Z.mul.
Proof.
  unfold eq64. intros a b E c d F.
  rewrite (Z.mul_mod a), (Z.mul_mod b), E, F by lia. reflexivity.
Qed.

Lemma wrap_eq64 z : wrap z ≡64 z.
Proof.
  unfold wrap, eq64. rewrite Zminus_mod_idemp_l. f_equal. lia.
Qed.

Lemma wrap_in_range z : in_range (wrap z).
Proof.
  unfold in_range, wrap.
  pose proof (Z.mod_pos_bound (z + 2 ^ 63) (2 ^ 64)). lia.
Qed.

Lemma wrap_small z : in_range z -> wrap z = z.
Proof. unfold in_range, wrap. intros. rewrite Z.mod_small; lia. Qed.

Lemma wrap_eq a b : a ≡64 b -> wrap a = wrap b.
Proof.
  unfold wrap, eq64. intros E. f_equal.
  rewrite <- (Zplus_mod_idemp_l a), E, Zplus_mod_idemp_l. reflexivity.
Qed.

Lemma eq64_in_range a b : a ≡64 b -> in_range a -> a = wrap b.
Proof. intros E R. rewrite <- (wrap_small a R). by apply wrap_eq. Qed.

#[global] Opaque eq64.

Lemma add_eq64 a b : add a b ≡64 a + b.
Proof. apply wrap_eq64. Qed.

Lemma sub_eq64 a b : sub a b ≡64 a - b.
Proof. apply wrap_eq64. Qed.

Lemma mul_eq64 a b : mul a b ≡64 a * b.
Proof. apply wrap_eq64. Qed.

Lemma add_in_range a b : in_range (add a b).
Proof. apply wrap_in_range. Qed.

Lemma sub_in_range a b : in_range (sub a b).
Proof. apply wrap_in_range. Qed.

End GoIntFacts.

(** ** The monad *)

Module MonadFacts.
Import geojson collection.

Lemma bind_Ok {A B} (m : M A) (k : A -> M B) c r c' :
  bind m k c = (Ok r, c') ->
  exists a c1, m c = (Ok a, c1) /\ k a c1 = (Ok r, c').
Proof.
  unfold bind. destruct (m c) as [[a|] c1]; [eauto | discriminate].
Qed.

Lemma bind_Ok_intro {A B} (m : M A) (k : A -> M B) c a c1 :
  m c = (Ok a, c1) -> bind m k c = k a c1.
Proof. unfold bind. by intros ->. Qed.

Lemma ret_Ok {A} (a r : A) c c' : ret a c = (Ok r, c') -> r = a /\ c' = c.
Proof. unfold ret. by inversion 1. Qed.

Lemma modify_Ok f c r c' : modify f c = (Ok r, c') -> c' = f c.
Proof. unfold modify. by inversion 1. Qed.

Lemma lift_Ok {A} (x : res A) c r c' : lift x c = (Ok r, c') -> x = Ok r /\ c' = c.
Proof. unfold lift. by inversion 1. Qed.

Lemma get_Ok c r c' : get c = (Ok r, c') -> r = c /\ c' = c.
Proof. unfold get. by inversion 1. Qed.

Lemma deref_Ok h c r c' : deref h c = (Ok r, c') -> items c !! h = Some r /\ c' = c.
Proof. unfold deref. destruct (items c !! h); by inversion 1. Qed.

Lemma panic_Ok {A} c (r : A) c' : panic c = (Ok r, c') -> False.
Proof. unfold panic. by inversion 1. Qed.

(** Inversion of a run that returns. *)
Ltac minv :=
  repeat match goal with
    | H : bind _ _ _ = (Ok _, _) |- _ =>
        let a := fresh "a" in let c := fresh "c" in let E := fresh "E" in
        apply bind_Ok in H; destruct H as (a & c & E & H)
    | H : ret _ _ = (Ok _, _) |- _ => apply ret_Ok in H; destruct H as [-> ->]
    | H : modify _ _ = (Ok _, _) |- _ => apply modify_Ok in H; subst
    | H : lift _ _ = (Ok _, _) |- _ => apply lift_Ok in H; destruct H as [H ->]
    | H : get _ = (Ok _, _) |- _ => apply get_Ok in H; destruct H as [-> ->]
    | H : deref _ _ = (Ok _, _) |- _ => apply deref_Ok in H; destruct H as [H ->]
    | H : panic _ = (Ok _, _) |- _ => by apply panic_Ok in H
    end.

End MonadFacts.

(** ** Sums over the stored items, and names in order of appearance *)

Module SumFacts.
Import geojson collection.

Section Sums.
Context `{Externals}.
Implicit Types (m : gmap string itemT) (f : itemT -> Z).

Lemma sum_items_empty f : sum_items f ∅ = 0.
Proof. unfold sum_items. apply map_fold_empty. Qed.

Lemma sum_items_insert f m i x :
  m !! i = None -> sum_items f (<[i:=x]> m) = f x + sum_items f m.
Proof.
  intros Hi. unfold sum_items.
  rewrite map_fold_insert_L; [done | intros; lia | done].
Qed.

Lemma sum_items_delete f m i x :
  m !! i = Some x -> sum_items f (delete i m) = sum_items f m - f x.
Proof.
  intros Hi. unfold sum_items.
  rewrite (map_fold_delete_L _ _ i x m); [lia | intros; lia | done].
Qed.

Lemma sum_items_update f m i x y :
  m !! i = Some x -> sum_items f (<[i:=y]> m) = sum_items f m - f x + f y.
Proof.
  intros Hi. rewrite <- insert_delete_eq.
  rewrite sum_items_insert by apply lookup_delete_eq.
  rewrite (sum_items_delete f m i x Hi). lia.
Qed.

Lemma alter_Some {A} (g : A -> A) (m : gmap string A) i x :
  m !! i = Some x -> alter g i m = <[i := g x]> m.
Proof.
  intros Hi. apply map_eq. intros j. destruct (decide (i = j)) as [->|Hne].
  - by rewrite lookup_alter_eq, lookup_insert_eq, Hi.
  - by rewrite lookup_alter_ne, lookup_insert_ne.
Qed.

Lemma first_seen_snoc l n :
  first_seen (l ++ [n]) =
  if bool_decide (n ∈ first_seen l) then first_seen l else first_seen l ++ [n].
Proof. unfold first_seen. by rewrite fold_left_app. Qed.


Lemma first_seen_elem l n : n ∈ first_seen l <-> n ∈ l.
Proof.
  induction l as [|x l IH] using rev_ind; [done |].
  rewrite first_seen_snoc. case_bool_decide as Hx; set_solver.
Qed.

End Sums.

End SumFacts.

(** ** The invariant is kept by every method that returns *)

Module InvFacts.
Import geojson collection GoInt GoIntFacts MonadFacts SumFacts.

Section Preservation.
Context `{Externals}.

Lemma Inv_New : Inv New.
Proof.
  constructor; simpl; try done.
  - intros id. unfold in_index. simpl. split.
    + intros ?%elem_of_nil. done.
    + intros (it & ? & _). done.
  - intros s id. split.
    + intros ?%not_elem_of_empty. done.
    + intros (it & ? & _). done.
  - intros name i. rewrite lookup_empty. split; [done |].
    intros [_ ?]. done.
Qed.



Lemma object_weight_Ok o w : Weight o = Ok w -> object_weight o = w.
Proof. unfold object_weight. by intros ->. Qed.

Lemma object_points_Ok o n : PositionCount o = Ok n -> object_points o = n.
Proof. unfold object_points. by intros ->. Qed.

Ltac measures :=
  repeat match goal with
    | H : Weight ?o = Ok ?w |- _ => apply object_weight_Ok in H; subst w
    | H : PositionCount ?o = Ok ?n |- _ => apply object_points_Ok in H; subst n
    | H : Ok _ = Ok _ |- _ => injection H as <-
    | H : res_bind ?r _ = Ok _ |- _ =>
        let E := fresh "E" in destruct r eqn:E; [simpl in H | discriminate H]
    end.

(** Assigning the member [fields] of a stored item, with the weight
    adjusted by the caller. *)
Lemma Inv_change_fields c c' h it fs :
  Inv c -> items c !! h = Some it ->
  items c' = <[h := {| item_id := item_id it; item_object := item_object it;
                       item_fields := fs |}]> (items c) ->
  values c' = values c -> index c' = index c ->
  fieldMap c' = fieldMap c -> ghost_names c' = ghost_names c ->
  points c' = points c -> objects c' = objects c -> nobjects c' = nobjects c ->
  in_range (weight c') ->
  weight c' ≡64 weight c - 8 * len (item_fields it) + 8 * len fs ->
  Inv c'.
Proof.
  intros I Hh Hitems Hv Hx Hfm Hg Hp Ho Hn Hr Hw.
  destruct I as [Iid Im Ic Ip Ipr Iw Iwr Ix Iv Ik Is Iz].
  constructor.
  - intros id it'. rewrite Hitems, lookup_insert_Some.
    intros [[<- <-]|[_ ?]]; simpl; eauto.
  - intros id it'. rewrite Hitems, lookup_insert_Some.
    intros [[<- <-]|[_ ?]]; simpl; eauto.
  - rewrite Ho, Hn, Hitems, map_size_insert_Some by eauto. done.
  - rewrite Hp, Hitems, (sum_items_update _ _ _ it) by done.
    rewrite Ip.
    change (item_points {| item_id := item_id it; item_object := item_object it;
                           item_fields := fs |}) with (item_points it).
    match goal with |- ?a ≡64 ?b => replace b with a by lia end. reflexivity.
  - by rewrite Hp.
  - rewrite Hw, Hitems, (sum_items_update _ _ _ it) by done.
    rewrite Iw.
    match goal with |- ?a ≡64 ?b => replace b with a; [reflexivity |] end.
    unfold item_weight. simpl. lia.
  - done.
  - intros id. unfold in_index in *. rewrite Hx, Ix, Hitems. split.
    + intros (it' & Hit' & Hgeo). destruct (decide (h = id)) as [->|Hne].
      * rewrite lookup_insert_eq. eexists. split; [done |]. simpl. congruence.
      * rewrite lookup_insert_ne by done. eauto.
    + intros (it' & [[<- <-]|[_ ?]]%lookup_insert_Some & Hgeo); eauto.
  - intros s id. rewrite Hv, Iv, Hitems. split.
    + intros (it' & Hit' & Hgeo). destruct (decide (h = id)) as [->|Hne].
      * rewrite lookup_insert_eq. eexists. split; [done |]. simpl.
        replace it with it' by congruence. done.
      * rewrite lookup_insert_ne by done. eauto.
    + intros (it' & [[<- <-]|[_ ?]]%lookup_insert_Some & Hgeo); eauto.
  - intros id it'. rewrite Hitems, lookup_insert_Some.
    intros [[<- <-]|[_ ?]]; simpl; eauto.
  - by rewrite Hfm, Hg.
  - by rewrite Hfm, Hg.
Qed.

(** Unlinking a stored item from the trees, with the counters
    adjusted. *)
Lemma Inv_delete c c' id it :
  Inv c -> items c !! id = Some it ->
  items c' = delete id (items c) ->
  (if IsGeometry (item_object it)
   then index c' = filter (fun e => e.1 ≠ item_id it) (index c) /\ values c' = values c /\
        objects c' ≡64 objects c - 1 /\ nobjects c' = nobjects c
   else index c' = index c /\
        (exists s, String_ (item_object it) = Ok s /\
                   values c' = values c ∖ {[ (s, item_id it) ]}) /\
        objects c' = objects c /\ nobjects c' ≡64 nobjects c - 1) ->
  fieldMap c' = fieldMap c -> ghost_names c' = ghost_names c ->
  in_range (points c') -> points c' ≡64 points c - item_points it ->
  in_range (weight c') -> weight c' ≡64 weight c - item_weight it ->
  Inv c'.
Proof.
  intros I Hid Hitems Hroute Hfm Hg Hpr Hp Hwr Hw.
  destruct I as [Iid Im Ic Ip Ipr Iw Iwr Ix Iv Ik Is Iz].
  assert (Hidit : item_id it = id) by eauto.
  assert (Hsize : Z.of_nat (size (items c')) = Z.of_nat (size (items c)) - 1).
  { rewrite Hitems, map_size_delete_Some by eauto.
    assert (size (items c) ≠ 0%nat); [| lia].
    intros Hz%map_size_empty_inv. rewrite Hz in Hid. done. }
  constructor.
  - intros id' it'. rewrite Hitems, lookup_delete_Some. intros [_ ?]. eauto.
  - intros id' it'. rewrite Hitems, lookup_delete_Some. intros [_ ?]. eauto.
  - rewrite Hsize, <- Ic.
    destruct (IsGeometry (item_object it)).
    + destruct Hroute as (_ & _ & -> & ->).
      match goal with |- ?a ≡64 ?b => replace b with a by lia end. reflexivity.
    + destruct Hroute as (_ & _ & -> & ->).
      match goal with |- ?a ≡64 ?b => replace b with a by lia end. reflexivity.
  - rewrite Hp, Hitems, (sum_items_delete _ _ _ it) by done. by rewrite Ip.
  - done.
  - rewrite Hw, Hitems, (sum_items_delete _ _ _ it) by done. by rewrite Iw.
  - done.
  - intros id'. unfold in_index in *. rewrite Hitems.
    destruct (IsGeometry (item_object it)) eqn:Hgeo.
    + destruct Hroute as (-> & _).
      rewrite list_elem_of_fmap. split.
      * intros ([k b] & -> & [Hne Hin]%list_elem_of_filter). simpl in *.
        destruct (proj1 (Ix k)) as (it' & Hit' & Hg').
        { apply list_elem_of_fmap. by exists (k, b). }
        exists it'. split; [| done]. rewrite lookup_delete_Some. split; congruence.
      * intros (it' & [Hne Hit']%lookup_delete_Some & Hg').
        assert (Hin : id' ∈ (index c).*1) by (apply Ix; eauto).
        apply list_elem_of_fmap in Hin as ([k b] & -> & Hin).
        exists (k, b). split; [done |]. apply list_elem_of_filter. simpl in *.
        split; [congruence | done].
    + destruct Hroute as (-> & _). rewrite Ix. split.
      * intros (it' & Hit' & Hg'). exists it'. split; [| done].
        rewrite lookup_delete_Some. split; [| done]. intros <-. congruence.
      * intros (it' & [Hne Hit']%lookup_delete_Some & Hg'). eauto.
  - intros s id'. rewrite Hitems.
    destruct (IsGeometry (item_object it)) eqn:Hgeo.
    + destruct Hroute as (_ & -> & _). rewrite Iv. split.
      * intros (it' & Hit' & Hg' & Hs). exists it'. split; [| done].
        rewrite lookup_delete_Some. split; [| done]. intros <-. congruence.
      * intros (it' & [Hne Hit']%lookup_delete_Some & Hg'). eauto.
    + destruct Hroute as (_ & (s0 & Hs0 & ->) & _).
      rewrite elem_of_difference, Iv, elem_of_singleton. split.
      * intros [(it' & Hit' & Hg' & Hs) Hne]. exists it'. split; [| done].
        rewrite lookup_delete_Some. split; [| done]. intros <-.
        apply Hne. f_equal; congruence.
      * intros (it' & [Hne Hit']%lookup_delete_Some & Hg'). split; [eauto |].
        intros [= -> ->]. congruence.
  - intros id' it'. rewrite Hitems, lookup_delete_Some. intros [_ ?]. eauto.
  - by rewrite Hfm, Hg.
  - by rewrite Hfm, Hg.
Qed.

(** Linking a new item under an id that is free. *)
Lemma Inv_insert c c' id obj bbox :
  Inv c -> items c !! id = None -> measurable obj ->
  items c' = <[id := {| item_id := id; item_object := obj; item_fields := [] |}]> (items c) ->
  (if IsGeometry obj
   then index c' = index c ++ [(id, bbox)] /\ values c' = values c /\
        objects c' ≡64 objects c + 1 /\ nobjects c' = nobjects c
   else index c' = index c /\
        (exists s, String_ obj = Ok s /\ values c' = {[ (s, id) ]} ∪ values c) /\
        objects c' = objects c /\ nobjects c' ≡64 nobjects c + 1) ->
  fieldMap c' = fieldMap c -> ghost_names c' = ghost_names c ->
  in_range (points c') -> points c' ≡64 points c + object_points obj ->
  in_range (weight c') -> weight c' ≡64 weight c + (object_weight obj + strlen id) ->
  Inv c'.
Proof.
  intros I Hid Hmeas Hitems Hroute Hfm Hg Hpr Hp Hwr Hw.
  destruct I as [Iid Im Ic Ip Ipr Iw Iwr Ix Iv Ik Is Iz].
  constructor.
  - intros id' it'. rewrite Hitems, lookup_insert_Some.
    intros [[<- <-]|[_ ?]]; simpl; eauto.
  - intros id' it'. rewrite Hitems, lookup_insert_Some.
    intros [[<- <-]|[_ ?]]; simpl; eauto.
  - rewrite Hitems, map_size_insert_None by done.
    replace (Z.of_nat (Datatypes.S (size (items c)))) with (Z.of_nat (size (items c)) + 1) by lia.
    rewrite <- Ic.
    destruct (IsGeometry obj).
    + destruct Hroute as (_ & _ & -> & ->).
      match goal with |- ?a ≡64 ?b => replace b with a by lia end. reflexivity.
    + destruct Hroute as (_ & _ & -> & ->).
      match goal with |- ?a ≡64 ?b => replace b with a by lia end. reflexivity.
  - rewrite Hp, Hitems, sum_items_insert by done. rewrite Ip.
    unfold item_points at 2. simpl.
    match goal with |- ?a ≡64 ?b => replace b with a by lia end. reflexivity.
  - done.
  - rewrite Hw, Hitems, sum_items_insert by done. rewrite Iw.
    unfold item_weight at 2. simpl. unfold len. simpl.
    match goal with |- ?a ≡64 ?b => replace b with a by lia end. reflexivity.
  - done.
  - intros id'. unfold in_index in *. rewrite Hitems.
    destruct (IsGeometry obj) eqn:Hgeo.
    + destruct Hroute as (-> & _).
      rewrite fmap_app, elem_of_app, Ix. simpl. rewrite list_elem_of_singleton. split.
      * intros [(it' & Hit' & Hg')| ->].
        -- exists it'. split; [| done]. rewrite lookup_insert_ne; [done |].
           intros <-. congruence.
        -- rewrite lookup_insert_eq. eauto.
      * intros (it' & [[<- <-]|[Hne Hit']]%lookup_insert_Some & Hg'); eauto.
    + destruct Hroute as (-> & _). rewrite Ix. split.
      * intros (it' & Hit' & Hg'). exists it'. split; [| done].
        rewrite lookup_insert_ne; [done |]. intros <-. congruence.
      * intros (it' & [[<- <-]|[Hne Hit']]%lookup_insert_Some & Hg'); [| eauto].
        simpl in Hg'. congruence.
  - intros s id'. rewrite Hitems.
    destruct (IsGeometry obj) eqn:Hgeo.
    + destruct Hroute as (_ & -> & _). rewrite Iv. split.
      * intros (it' & Hit' & Hg' & Hs). exists it'. split; [| done].
        rewrite lookup_insert_ne; [done |]. intros <-. congruence.
      * intros (it' & [[<- <-]|[Hne Hit']]%lookup_insert_Some & Hg' & Hs); [| eauto].
        simpl in Hg'. congruence.
    + destruct Hroute as (_ & (s0 & Hs0 & ->) & _).
      rewrite elem_of_union, elem_of_singleton, Iv. split.
      * intros [[= -> ->]|(it' & Hit' & Hg' & Hs)].
        -- rewrite lookup_insert_eq. eauto.
        -- exists it'. split; [| done]. rewrite lookup_insert_ne; [done |].
           intros <-. congruence.
      * intros (it' & [[<- <-]|[Hne Hit']]%lookup_insert_Some & Hg' & Hs).
        -- left. simpl in Hs. congruence.
        -- right. eauto.
  - intros id' it'. rewrite Hitems, lookup_insert_Some.
    intros [[<- <-]|[_ ?]]; simpl; [| eauto].
    intros Hg'. rewrite Hg' in Hroute. destruct Hroute as (_ & (s & Hs & _) & _). eauto.
  - by rewrite Hfm, Hg.
  - by rewrite Hfm, Hg.
Qed.

(** A call of [setField]: the name is recorded, and given the next slot
    when it has none. *)
Lemma Inv_registry c c' field :
  Inv c ->
  items c' = items c -> values c' = values c -> index c' = index c ->
  weight c' = weight c -> points c' = points c ->
  objects c' = objects c -> nobjects c' = nobjects c ->
  ghost_names c' = ghost_names c ++ [field] ->
  fieldMap c' = match fieldMap c !! field with
                | Some _ => fieldMap c
                | None => <[field := Z.of_nat (size (fieldMap c))]> (fieldMap c)
                end ->
  Inv c'.
Proof.
  intros I Hitems Hv Hx Hw Hp Ho Hn Hg Hfm.
  destruct I as [Iid Im Ic Ip Ipr Iw Iwr Ix Iv Ik Is Iz].
  assert (Hseen : forall name k, first_seen (ghost_names c) !! k = Some name ->
                    fieldMap c !! name = Some (Z.of_nat k)).
  { intros name k Hk. apply Is. rewrite Nat2Z.id. split; [lia | done]. }
  constructor; unfold in_index; rewrite ?Hitems, ?Hv, ?Hx, ?Hw, ?Hp, ?Ho, ?Hn; try done.
  - intros name i. rewrite Hfm, Hg, first_seen_snoc.
    destruct (fieldMap c !! field) as [j|] eqn:Hf.
    + rewrite bool_decide_eq_true_2; [apply Is |].
      apply Is in Hf as [_ Hf]. by eapply list_elem_of_lookup_2.
    + rewrite bool_decide_eq_false_2.
      2:{ intros [k Hk]%list_elem_of_lookup_1. apply Hseen in Hk. congruence. }
      rewrite lookup_insert_Some, Is, Iz. split.
      * intros [[<- <-]|[Hne [Hi Hl]]].
        -- split; [lia |]. rewrite Nat2Z.id.
           rewrite lookup_app_r by lia. by rewrite Nat.sub_diag.
        -- split; [done |]. rewrite lookup_app_l; [done |]. by eapply lookup_lt_Some.
      * intros [Hi Hl].
        destruct (decide (Z.to_nat i < length (first_seen (ghost_names c)))%nat) as [Hlt|Hge].
        -- rewrite lookup_app_l in Hl by done. right. split; [| done].
           intros <-. apply Hseen in Hl. congruence.
        -- rewrite lookup_app_r in Hl by lia.
           apply list_lookup_singleton_Some in Hl as [Hz ->]. left. split; [done |]. lia.
  - rewrite Hfm, Hg, first_seen_snoc.
    destruct (fieldMap c !! field) as [j|] eqn:Hf.
    + rewrite bool_decide_eq_true_2; [done |].
      apply Is in Hf as [_ Hf]. by eapply list_elem_of_lookup_2.
    + rewrite bool_decide_eq_false_2.
      2:{ intros [k Hk]%list_elem_of_lookup_1. apply Hseen in Hk. congruence. }
      rewrite map_size_insert_None, length_app by done. simpl. lia.
Qed.

Lemma Inv_slot_nonneg c name i : Inv c -> fieldMap c !! name = Some i -> 0 <= i.
Proof. intros I Hf. by apply (inv_slots c I) in Hf as [? _]. Qed.

(** The loop of [setField] pads the vector with zeros up to the slot. *)
Lemma grow_replicate idx n fs :
  n = Z.to_nat (idx + 1 - len fs) ->
  grow n idx fs = fs ++ replicate n 0%float.
Proof.
  revert fs. induction n as [|n IH]; intros fs Hn; simpl.
  - by rewrite app_nil_r.
  - assert (idx >= len fs) by lia.
    destruct (idx >=? len fs) eqn:E; [| lia].
    rewrite IH.
    + by rewrite <- app_assoc.
    + unfold len in *. rewrite length_app. simpl. lia.
Qed.

Lemma remove_Ok c id r c' :
  Inv c -> remove id c = (Ok r, c') ->
  r = items c !! id /\ Inv c' /\ items c' = delete id (items c) /\
  fieldMap c' = fieldMap c /\ ghost_names c' = ghost_names c.
Proof.
  intros I Hr. unfold remove in Hr.
  apply bind_Ok in Hr as (i & c0 & E & Hr).
  unfold items_Delete in E. injection E as <- <-.
  destruct (items c !! id) as [it|] eqn:Hit.
  - assert (Hm := inv_measurable c I id it Hit).
    apply bind_Ok in Hr as (? & c1 & E & Hr).
    destruct (IsGeometry (item_object it)) eqn:Hgeo.
    + unfold index_Remove in E. minv. measures.
      split; [done |]. split; [| done].
      eapply (Inv_delete c _ id it); try done; simpl.
      * rewrite Hgeo. split_and!; try done. apply sub_eq64.
      * apply sub_in_range.
      * apply sub_eq64.
      * apply sub_in_range.
      * rewrite sub_eq64, sub_eq64, add_eq64, mul_eq64.
        match goal with |- ?a ≡64 ?b => replace b with a; [reflexivity |] end.
        unfold item_weight. lia.
    + unfold values_Delete, values_key in E. minv. measures.
      split; [done |]. split; [| done].
      eapply (Inv_delete c _ id it); try done; simpl.
      * rewrite Hgeo. split_and!; try done; [eauto | apply sub_eq64].
      * apply sub_in_range.
      * apply sub_eq64.
      * apply sub_in_range.
      * rewrite sub_eq64, sub_eq64, add_eq64, mul_eq64.
        match goal with |- ?a ≡64 ?b => replace b with a; [reflexivity |] end.
        unfold item_weight. lia.
  - apply ret_Ok in Hr as [-> ->]. split; [done |]. split; [| done].
    unfold with_items. rewrite delete_id by done. by destruct c.
Qed.

Lemma insert_Ok c id obj h c' :
  Inv c -> items c !! id = None -> insert id obj c = (Ok h, c') ->
  h = id /\ Inv c' /\
  items c' = <[id := {| item_id := id; item_object := obj; item_fields := [] |}]> (items c) /\
  fieldMap c' = fieldMap c /\ ghost_names c' = ghost_names c.
Proof.
  intros I Hid Hr. unfold insert in Hr.
  apply bind_Ok in Hr as (? & c1 & E & Hr).
  destruct (IsGeometry obj) eqn:Hgeo.
  - unfold index_Insert, Rect, items_ReplaceOrInsert in *. minv.
    assert (Hm : measurable obj) by (split; eauto).
    measures. minv.
    split; [done |]. split; [| done].
    eapply (Inv_insert c _ id obj); try done; simpl.
    + rewrite Hgeo. split_and!; try done. apply add_eq64.
    + apply add_in_range.
    + apply add_eq64.
    + apply add_in_range.
    + by rewrite add_eq64, add_eq64.
  - unfold values_ReplaceOrInsert, values_key, items_ReplaceOrInsert in *. minv.
    assert (Hm : measurable obj) by (split; eauto).
    measures.
    split; [done |]. split; [| done].
    eapply (Inv_insert c _ id obj {| Min := {| X := 0; Y := 0; Zc := 0 |};
                                     Max := {| X := 0; Y := 0; Zc := 0 |} |});
      try done; simpl.
    + rewrite Hgeo. split_and!; try done; [eauto | apply add_eq64].
    + apply add_in_range.
    + apply add_eq64.
    + apply add_in_range.
    + by rewrite add_eq64, add_eq64.
Qed.

Lemma padded_lookup (fs : list float) idx :
  0 <= idx ->
  (fs ++ replicate (Z.to_nat (idx + 1 - len fs)) 0%float) !! Z.to_nat idx
  = Some (default 0%float (fs !! Z.to_nat idx)).
Proof.
  intros Hidx. unfold len.
  destruct (decide (Z.to_nat idx < length fs)%nat) as [Hlt|Hge].
  - rewrite lookup_app_l by done.
    destruct (lookup_lt_is_Some_2 fs _ Hlt) as [x Hx]. by rewrite Hx.
  - rewrite lookup_app_r by lia.
    rewrite (lookup_ge_None_2 fs) by lia. simpl.
    apply lookup_replicate_2. lia.
Qed.

(** [setField] on a stored item returns, and what it leaves. *)
Lemma setField_run c h it field value :
  Inv c -> items c !! h = Some it ->
  let idx := default (Z.of_nat (size (fieldMap c))) (fieldMap c !! field) in
  let fs := item_fields it ++ replicate (Z.to_nat (idx + 1 - len (item_fields it))) 0%float in
  exists c',
    setField h field value c
    = (Ok (negb (default 0%float (item_fields it !! Z.to_nat idx) =? value)%float), c') /\
    Inv c' /\
    items c' = <[h := {| item_id := item_id it; item_object := item_object it;
                         item_fields := <[Z.to_nat idx := value]> fs |}]> (items c) /\
    fieldMap c' = match fieldMap c !! field with
                  | Some _ => fieldMap c
                  | None => <[field := idx]> (fieldMap c)
                  end /\
    ghost_names c' = ghost_names c ++ [field].
Proof.
  intros I Hit idx fs.
  assert (Hidx : 0 <= idx).
  { subst idx. destruct (fieldMap c !! field) eqn:Hf; simpl; [| lia].
    by eapply Inv_slot_nonneg. }
  set (c1 := with_fieldMap (fun m => match fieldMap c !! field with
                                     | Some _ => m
                                     | None => <[field := idx]> m
                                     end)
               (with_ghost_names (fun l => l ++ [field]) c)).
  assert (I1 : Inv c1).
  { eapply (Inv_registry c c1 field); try done. subst c1 idx. simpl.
    by destruct (fieldMap c !! field). }
  set (it1 := {| item_id := item_id it; item_object := item_object it; item_fields := fs |}).
  set (c2 := with_weight (fun w => add w (mul (len fs) 8))
               (with_items (<[h := it1]>)
                  (with_weight (fun w => sub w (mul (len (item_fields it)) 8)) c1))).
  assert (I2 : Inv c2).
  { eapply (Inv_change_fields c1 c2 h it fs); try done.
    - apply add_in_range.
    - subst c2 c1. simpl. rewrite add_eq64, sub_eq64, !mul_eq64.
      match goal with |- ?a ≡64 ?b => replace b with a by lia end. reflexivity. }
  set (it2 := {| item_id := item_id it; item_object := item_object it;
                 item_fields := <[Z.to_nat idx := value]> fs |}).
  exists (with_items (<[h := it2]>) c2).
  split.
  - unfold setField, bind at 1, modify at 1, bind at 1, get.
    assert (Hstep1 :
      (match fieldMap (with_ghost_names (fun l => l ++ [field]) c) !! field with
       | Some idx => ret idx
       | None =>
           modify (with_fieldMap (<[field := Z.of_nat (size (fieldMap
              (with_ghost_names (fun l => l ++ [field]) c)))]>)) ;;
           ret (Z.of_nat (size (fieldMap (with_ghost_names (fun l => l ++ [field]) c))))
       end) (with_ghost_names (fun l => l ++ [field]) c) = (Ok idx, c1)).
    { subst c1 idx. simpl. by destruct (fieldMap c !! field). }
    rewrite (bind_Ok_intro _ _ _ _ _ Hstep1).
    assert (Hd1 : deref h c1 = (Ok it, c1)).
    { unfold deref. subst c1. simpl. by rewrite Hit. }
    rewrite (bind_Ok_intro _ _ _ _ _ Hd1).
    unfold bind at 1, modify at 1.
    rewrite grow_replicate by done. fold fs.
    unfold bind at 1, set_fields at 1, modify at 1.
    unfold bind at 1, modify at 1.
    destruct (0 <=? idx) eqn:Hle; [| lia].
    subst fs. rewrite padded_lookup by done.
    unfold bind, set_fields, modify, ret. f_equal.
    subst c2 c1 it2 it1. unfold with_items, with_weight. simpl. f_equal.
    rewrite (alter_Some _ (items c) h it) by done.
    by rewrite (alter_Some _ _ h _) by apply lookup_insert_eq.
  - split.
    + eapply (Inv_change_fields c2 _ h it1 (<[Z.to_nat idx := value]> fs)); try done.
      * subst c2. simpl. apply lookup_insert_eq.
      * apply (inv_weight_range _ I2).
      * simpl. unfold len. rewrite length_insert.
        match goal with |- ?a ≡64 ?b => replace b with a by lia end. reflexivity.
    + subst c2 c1. simpl. rewrite !insert_insert_eq. split; [done |]. split; [| done].
      by destruct (fieldMap c !! field).
Qed.

Lemma setField_Ok c h it field value u c' :
  Inv c -> items c !! h = Some it ->
  setField h field value c = (Ok u, c') ->
  Inv c' /\
  (exists fs, items c' = <[h := {| item_id := item_id it; item_object := item_object it;
                                    item_fields := fs |}]> (items c)) /\
  ghost_names c' = ghost_names c ++ [field].
Proof.
  intros I Hit Hr.
  destruct (setField_run c h it field value I Hit) as (c1 & Hrun & I1 & Hitems & _ & Hg).
  rewrite Hrun in Hr. injection Hr as <- <-. eauto.
Qed.

Lemma set_each_Ok c h it fields values i r c' :
  Inv c -> items c !! h = Some it ->
  set_each h fields values i c = (Ok r, c') ->
  Inv c' /\
  (exists fs, items c' = <[h := {| item_id := item_id it; item_object := item_object it;
                                    item_fields := fs |}]> (items c)) /\
  ghost_names c' = ghost_names c ++ fields.
Proof.
  revert c it i. induction fields as [|field rest IH]; intros c it i I Hit Hr; simpl in Hr.
  - apply ret_Ok in Hr as [_ ->]. split; [done |]. rewrite app_nil_r. split; [| done].
    exists (item_fields it).
    rewrite insert_id; [done |]. rewrite Hit. by destruct it.
  - destruct (values !! i) as [v|]; [| by apply panic_Ok in Hr].
    apply bind_Ok in Hr as (u & c1 & E & Hr).
    apply (setField_Ok _ _ it) in E as (I1 & [fs1 Hi1] & Hg1); [| done | done].
    eapply IH in Hr as (I' & [fs Hi'] & Hg'); [| done |].
    2:{ rewrite Hi1. apply lookup_insert_eq. }
    split; [done |]. split.
    + exists fs. rewrite Hi', Hi1. simpl. by rewrite insert_insert_eq.
    + by rewrite Hg', Hg1, <- app_assoc.
Qed.

Lemma ReplaceOrInsert_Ok c id obj fields values r c' :
  Inv c -> ReplaceOrInsert id obj fields values c = (Ok r, c') ->
  Inv c' /\
  (exists fs, items c' = <[id := {| item_id := id; item_object := obj;
                                    item_fields := fs |}]> (items c)) /\
  r.1.1 = item_object <$> items c !! id /\
  (exists more, ghost_names c' = ghost_names c ++ more).
Proof.
  intros I Hr. unfold ReplaceOrInsert in Hr.
  apply bind_Ok in Hr as (old & c1 & E1 & Hr).
  apply remove_Ok in E1 as (-> & I1 & Hi1 & _ & Hg1); [| done].
  apply bind_Ok in Hr as (h & c2 & E2 & Hr).
  apply insert_Ok in E2 as (-> & I2 & Hi2 & _ & Hg2); [| done |].
  2:{ rewrite Hi1. apply lookup_delete_eq. }
  rewrite Hi1, insert_delete_eq in Hi2. rewrite Hg1 in Hg2. clear Hg1.
  set (new := {| item_id := id; item_object := obj; item_fields := [] |}) in *.
  apply bind_Ok in Hr as (o & c3 & E3 & Hr).
  assert (I3 : Inv c3 /\ (exists fs, items c3 = <[id := {| item_id := id; item_object := obj;
                              item_fields := fs |}]> (items c)) /\
               o.1 = item_object <$> items c !! id /\
               ghost_names c3 = ghost_names c).
  { destruct (items c !! id) as [oit|] eqn:Hold.
    - unfold set_fields in E3. minv. simpl. split; [| eauto].
      2:{ split; [| done]. exists (item_fields oit). rewrite Hi2.
          rewrite (alter_Some _ _ id new) by apply lookup_insert_eq.
          by rewrite insert_insert_eq. }
      eapply (Inv_change_fields c2 _ id new (item_fields oit)); try done; simpl.
      + rewrite Hi2. apply lookup_insert_eq.
      + by rewrite (alter_Some _ _ id new) by (rewrite Hi2; apply lookup_insert_eq).
      + apply add_in_range.
      + rewrite add_eq64, mul_eq64. unfold len. simpl.
        match goal with |- ?a ≡64 ?b => replace b with a by lia end. reflexivity.
    - apply ret_Ok in E3 as [-> ->]. split; [done |]. split; [| done].
      exists []. done. }
  destruct I3 as (I3 & [fs3 Hi3] & Ho & Hg3).
  set (it3 := {| item_id := id; item_object := obj; item_fields := fs3 |}) in *.
  assert (Hit3 : items c3 !! id = Some it3) by (rewrite Hi3; apply lookup_insert_eq).
  apply bind_Ok in Hr as (? & c4 & E4 & Hr).
  assert (I4 : Inv c4 /\ (exists fs, items c4 = <[id := {| item_id := id; item_object := obj;
                              item_fields := fs |}]> (items c)) /\
               exists more, ghost_names c4 = ghost_names c ++ more).
  { destruct (bool_decide (fields = None) && (0 <? len values)).
    - unfold set_fields in E4. minv.
      match goal with Hd : items c3 !! id = Some ?x |- _ =>
        assert (x = it3) as -> by congruence end.
      split; [| split].
      + eapply (Inv_change_fields c3 _ id it3 values); try done; simpl.
        * by rewrite (alter_Some _ _ id it3).
        * apply add_in_range.
        * rewrite add_eq64, sub_eq64, !mul_eq64.
          match goal with |- ?a ≡64 ?b => replace b with a by lia end. reflexivity.
      + exists values. simpl. rewrite (alter_Some _ _ id it3) by done.
        rewrite Hi3. by rewrite insert_insert_eq.
      + exists []. simpl. by rewrite app_nil_r.
    - apply (set_each_Ok _ _ it3) in E4 as (I4 & [fs Hi4] & Hg4); [| done | done].
      split; [done |]. split.
      + exists fs. rewrite Hi4, Hi3. simpl. by rewrite insert_insert_eq.
      + rewrite Hg3 in Hg4. eauto. }
  destruct I4 as (I4 & Hi4 & Hg4). minv. simpl. done.
Qed.

Lemma Remove_Ok c id r c' :
  Inv c -> Remove id c = (Ok r, c') -> Inv c' /\ ghost_names c' = ghost_names c.
Proof.
  intros I Hr. unfold Remove in Hr.
  apply bind_Ok in Hr as (it & c1 & E & Hr).
  apply remove_Ok in E as (_ & I1 & _ & _ & Hg); [| done].
  destruct it; minv; done.
Qed.

Lemma SetField_Ok c id field value r c' :
  Inv c -> SetField id field value c = (Ok r, c') ->
  Inv c' /\ exists more, ghost_names c' = ghost_names c ++ more.
Proof.
  intros I Hr. unfold SetField in Hr.
  apply bind_Ok in Hr as (i & c1 & E & Hr).
  unfold items_Get in E. injection E as <- <-.
  destruct (items c !! id) as [it|] eqn:Hit.
  - apply bind_Ok in Hr as (u & c1 & E & Hr).
    apply (setField_Ok _ _ it) in E as (I1 & _ & Hg); [| done | done].
    minv. eauto.
  - minv. split; [done |]. exists []. by rewrite app_nil_r.
Qed.

Lemma decode_rows_Ok c rows fields r c' :
  Inv c -> decode_rows rows fields c = (Ok r, c') ->
  Inv c' /\ exists more, ghost_names c' = ghost_names c ++ more.
Proof.
  revert c. induction rows as [|row rest IH]; intros c I Hr; simpl in Hr.
  - minv. split; [done |]. exists []. by rewrite app_nil_r.
  - destruct (ObjectAuto (Obj row)) as [obj|err].
    + apply bind_Ok in Hr as (x & c1 & E & Hr).
      apply ReplaceOrInsert_Ok in E as (I1 & _ & _ & [m1 Hg1]); [| done].
      apply IH in Hr as (I' & [m2 Hg2]); [| done].
      split; [done |]. exists (m1 ++ m2). by rewrite Hg2, Hg1, app_assoc.
    + minv. split; [done |]. exists []. by rewrite app_nil_r.
Qed.

Lemma UnmarshalJSON_Ok c b r c' :
  Inv c -> UnmarshalJSON b c = (Ok r, c') ->
  Inv c' /\ exists more, ghost_names c' = ghost_names c ++ more.
Proof.
  intros I Hr. unfold UnmarshalJSON in Hr.
  destruct b as [| |e|p]; simpl in Hr;
    try (minv; split; [done |]; exists []; by rewrite app_nil_r).
  by eapply decode_rows_Ok.
Qed.

Lemma step_Inv c c' :
  Inv c -> step c c' -> Inv c' /\ exists more, ghost_names c' = ghost_names c ++ more.
Proof.
  intros I Hs. revert I.
  destruct Hs as [? ? ? ? ? ? ? E|? ? ? ? E|? ? ? ? ? ? E|? ? ? ? E]; intros I.
  - apply ReplaceOrInsert_Ok in E as (? & _ & _ & ?); done.
  - apply Remove_Ok in E as [? Hg]; [| done]. split; [done |].
    exists []. by rewrite app_nil_r.
  - by eapply SetField_Ok.
  - by eapply UnmarshalJSON_Ok.
Qed.

Lemma reachable_Inv c : reachable c -> Inv c.
Proof.
  induction 1 as [|c c' _ IH Hs]; [apply Inv_New |].
  by apply (step_Inv c c') in Hs as [? _].
Qed.

End Preservation.
End InvFacts.

(** ** The claims on the counters, the registry and the routing *)

Module Claims.
Import geojson collection GoInt GoIntFacts MonadFacts SumFacts InvFacts.

Section Registry.
Context `{Externals}.




End Registry.

(** C1: in every state reachable by the public mutations, [Count] is
    [objects + nobjects] and the number of entries of the id-ordered tree,
    [points] is the sum of [PositionCount] over the stored items, and
    [weight] the sum of [Weight + len(id) + 8 * len(fields)].  The counters
    are Go ints: the equalities are those of 64-bit integers, and of
    integers when the sums fit in 64 bits. *)
Theorem C1_counters_recomputed `{Externals} (c : Collection) :
  reachable c ->
  (forall id it, items c !! id = Some it -> measurable (item_object it)) /\
  Count c = add (objects c) (nobjects c) /\
  Count c = wrap (Z.of_nat (size (items c))) /\
  points c = wrap (sum_items item_points (items c)) /\
  weight c = wrap (sum_items item_weight (items c)) /\
  (in_range (Z.of_nat (size (items c))) -> Count c = Z.of_nat (size (items c))) /\
  (in_range (sum_items item_points (items c)) ->
   points c = sum_items item_points (items c)) /\
  (in_range (sum_items item_weight (items c)) ->
   weight c = sum_items item_weight (items c)).
Proof.
  intros I%reachable_Inv.
  assert (Hc : Count c = wrap (Z.of_nat (size (items c)))).
  { unfold Count, add. apply wrap_eq. apply (inv_count c I). }
  assert (Hp : points c = wrap (sum_items item_points (items c))).
  { apply eq64_in_range; [apply (inv_points c I) | apply (inv_points_range c I)]. }
  assert (Hw : weight c = wrap (sum_items item_weight (items c))).
  { apply eq64_in_range; [apply (inv_weight c I) | apply (inv_weight_range c I)]. }
  split; [apply (inv_measurable c I) |].
  split; [done |].
  repeat split; try done.
  - intros R. by rewrite Hc, wrap_small.
  - intros R. by rewrite Hp, wrap_small.
  - intros R. by rewrite Hw, wrap_small.
Qed.

(** C10: [Remove] of an id that is not in the collection returns a nil
    object, nil fields and found = false, and leaves the whole state as it
    was. *)
Theorem C10_Remove_absent `{Externals} (c : Collection) (id : string) :
  items c !! id = None ->
  Remove id c = (Ok (None, [], false), c).
Proof.
  intros Hid. unfold Remove, remove, bind, items_Delete. rewrite Hid. simpl.
  unfold ret. f_equal. unfold with_items. rewrite delete_id by done. by destruct c.
Qed.

(** C7: [SetField] on an id of the collection returns; afterwards the
    name has a slot in the registry (the one it had, or the next free one),
    the field vector of the item is the old one padded with zeros up to and
    including the slot, with [value] in the slot, and [updated] says whether
    the old value of the slot, zero when the vector did not reach it,
    differs from [value] (Go's [!=] on float64). *)
Theorem C7_SetField `{Externals} (c : Collection) (id name : string) (value : float)
    (it : itemT) :
  reachable c -> items c !! id = Some it ->
  let idx := default (Z.of_nat (size (fieldMap c))) (fieldMap c !! name) in
  let padded :=
    item_fields it ++ replicate (Z.to_nat (idx + 1 - len (item_fields it))) 0%float in
  let fields' := <[Z.to_nat idx := value]> padded in
  let updated := negb (default 0%float (item_fields it !! Z.to_nat idx) =? value)%float in
  exists c',
    SetField id name value c = (Ok (Some (item_object it), fields', updated, true), c') /\
    0 <= idx /\
    fieldMap c' !! name = Some idx /\
    items c' !! id = Some {| item_id := item_id it; item_object := item_object it;
                             item_fields := fields' |} /\
    len fields' = Z.max (len (item_fields it)) (idx + 1) /\
    fields' !! Z.to_nat idx = Some value /\
    (forall j, j ≠ Z.to_nat idx ->
       fields' !! j = if decide (j < length (item_fields it))%nat
                      then item_fields it !! j
                      else if decide (j < Z.to_nat idx)%nat then Some 0%float else None).
Proof.
  intros I%reachable_Inv Hit idx padded fields' updated.
  destruct (setField_run c id it name value I Hit) as (c' & Hrun & I' & Hitems & Hfm & _).
  fold idx in Hrun, Hitems, Hfm. fold padded in Hitems. fold fields' in Hitems.
  fold updated in Hrun.
  assert (Hidx : 0 <= idx).
  { subst idx. destruct (fieldMap c !! name) as [z|] eqn:Hf; simpl; [| lia].
    exact (Inv_slot_nonneg c name z I Hf). }
  assert (Hlen : length padded = Z.to_nat (Z.max (len (item_fields it)) (idx + 1))).
  { subst padded. unfold len. rewrite length_app, length_replicate. lia. }
  exists c'. split.
  - unfold SetField, bind, items_Get. rewrite Hit, Hrun.
    unfold deref. rewrite Hitems, lookup_insert_eq. done.
  - split; [done |]. split.
    { rewrite Hfm. subst idx. destruct (fieldMap c !! name) eqn:Hf; simpl; [done |].
      apply lookup_insert_eq. }
    split; [rewrite Hitems; apply lookup_insert_eq |].
    split; [subst fields'; unfold len in *; rewrite length_insert; lia |].
    split; [subst fields'; apply list_lookup_insert_eq; lia |].
    intros j Hj. subst fields'. rewrite list_lookup_insert_ne by done. subst padded.
    destruct (decide (j < length (item_fields it))%nat) as [Hlt|Hge].
    + by rewrite lookup_app_l.
    + rewrite lookup_app_r by lia. destruct (decide (j < Z.to_nat idx)%nat).
      * apply lookup_replicate_2. unfold len. lia.
      * apply lookup_ge_None. rewrite length_replicate. unfold len. lia.
Qed.


(** C9, as amended: an object stored by [ReplaceOrInsert] is placed by its
    [IsGeometry]: in the value index and not in the spatial index when it
    is false, in the spatial index and not in the value index when it is
    true; and [IsGeometry] is true of every Feature, whatever its
    geometry. *)
Theorem C9_routing `{Externals} (c : Collection) (id : string) (obj : Object)
    (fields : option (list string)) (values : list float) r c' :
  reachable c ->
  ReplaceOrInsert id obj fields values c = (Ok r, c') ->
  (IsGeometry obj = false -> in_values id c' /\ ~ in_index id c') /\
  (IsGeometry obj = true -> in_index id c' /\ ~ in_values id c') /\
  (forall g b p, IsGeometry (Feature g b p) = true).
Proof.
  intros I%reachable_Inv Hr.
  apply ReplaceOrInsert_Ok in Hr as (I' & [fs Hitems] & _); [| done].
  assert (Hid : items c' !! id = Some {| item_id := id; item_object := obj;
                                         item_fields := fs |}).
  { rewrite Hitems. apply lookup_insert_eq. }
  split; [| split; [| done]].
  - intros Hgeo. split.
    + destruct (inv_keyed c' I' _ _ Hid Hgeo) as [s Hs]. exists s.
      apply (inv_values c' I'). eauto.
    + intros (it & Hit & Hg)%(inv_index c' I'). rewrite Hid in Hit.
      injection Hit as <-. simpl in Hg. congruence.
  - intros Hgeo. split.
    + apply (inv_index c' I'). eauto.
    + intros [s (it & Hit & Hg & _)%(inv_values c' I')]. rewrite Hid in Hit.
      injection Hit as <-. simpl in Hg. congruence.
Qed.

End Claims.

(** ** The claims on the examples *)

Module Witnesses.
Import geojson collection GoInt GoIntFacts MonadFacts SumFacts InvFacts Claims examples.

Lemma run_after {A} (m : M A) c r : (m c).1 = Ok r -> m c = (Ok r, after m c).
Proof. unfold after. destruct (m c) as [x c']. simpl. by intros ->. Qed.

Lemma two_points_reachable : reachable two_points.
Proof.
  unfold two_points.
  apply (reach_step (after (ReplaceOrInsert "A" (point "A" 0.5 0.5) None []) New)).
  - apply (reach_step New); [apply reach_New |].
    apply (step_ReplaceOrInsert New "A" (point "A" 0.5 0.5) None [] (None, [], [])).
    apply run_after. vm_compute. reflexivity.
  - apply (step_ReplaceOrInsert _ "B" (point "B" 1.5 1.5) None [] (None, [], [])).
    apply run_after. vm_compute. reflexivity.
Qed.

Lemma one_field_reachable : reachable one_field.
Proof.
  unfold one_field.
  apply (reach_step two_points); [apply two_points_reachable |].
  apply (step_SetField two_points "A" "speed" 10%float
           (Some (point "A" 0.5 0.5), [10%float], true, true)).
  apply run_after. vm_compute. reflexivity.
Qed.

Lemma C1_counters_recomputed_witness :
  reachable one_field /\
  Count one_field = wrap (Z.of_nat (size (items one_field))) /\
  points one_field = wrap (sum_items item_points (items one_field)) /\
  weight one_field = wrap (sum_items item_weight (items one_field)).
Proof.
  split; [apply one_field_reachable |].
  pose proof (C1_counters_recomputed one_field one_field_reachable)
    as (_ & _ & Hc & Hp & Hw & _).
  exact (conj Hc (conj Hp Hw)).
Defined.

Lemma C10_Remove_absent_witness :
  items two_points !! "Z"%string = None /\
  Remove "Z" two_points = (Ok (None, [], false), two_points).
Proof.
  split; [vm_compute; reflexivity |].
  apply (C10_Remove_absent two_points "Z"). vm_compute. reflexivity.
Defined.

Lemma C7_SetField_witness :
  exists c',
    SetField "B" "heading" 90%float one_field
    = (Ok (Some (point "B" 1.5 1.5), [0%float; 90%float], true, true), c') /\
    fieldMap c' !! "heading"%string = Some 1.
Proof.
  destruct (C7_SetField one_field "B" "heading" 90%float
              {| item_id := "B"; item_object := point "B" 1.5 1.5; item_fields := [] |}
              one_field_reachable)
    as (c' & Hrun & _ & Hfm & _).
  - vm_compute. reflexivity.
  - exists c'. split; [exact Hrun | exact Hfm].
Defined.


Lemma C9_routing_witness :
  in_index "A" (after (ReplaceOrInsert "A" (point "A" 0.5 0.5) None []) New) /\
  ~ in_values "A" (after (ReplaceOrInsert "A" (point "A" 0.5 0.5) None []) New).
Proof.
  refine (proj1 (proj2 (C9_routing New "A" (point "A" 0.5 0.5) None [] (None, [], []) _
                          reach_New _)) _).
  - apply run_after. vm_compute. reflexivity.
  - reflexivity.
Defined.

(** C9, as stated, fails: a Feature without geometry, be it around a
    geometry that holds no position or with a nil Geometry, is never placed
    in the value index.  The first is stored in the spatial index; the
    second makes [ReplaceOrInsert] panic, after [insert] has placed it in
    the spatial index. *)
Lemma C9_feature_without_geometry_not_in_values :
  feature_without_geometry bare_feature /\
  (ReplaceOrInsert "f" bare_feature None [] New).1 = Ok (None, [], []) /\
  in_index "f" (after (ReplaceOrInsert "f" bare_feature None []) New) /\
  ~ in_values "f" (after (ReplaceOrInsert "f" bare_feature None []) New) /\
  feature_without_geometry nil_feature /\
  (ReplaceOrInsert "f" nil_feature None [] New).1 = Panic /\
  in_index "f" (after (ReplaceOrInsert "f" nil_feature None []) New) /\
  ~ in_values "f" (after (ReplaceOrInsert "f" nil_feature None []) New).
Proof.
  assert (Hv1 : values (after (ReplaceOrInsert "f" bare_feature None []) New) = ∅)
    by (vm_compute; reflexivity).
  assert (Hv2 : values (after (ReplaceOrInsert "f" nil_feature None []) New) = ∅)
    by (vm_compute; reflexivity).
  assert (Hx1 : (index (after (ReplaceOrInsert "f" bare_feature None []) New)).*1
                = ["f"%string]) by (vm_compute; reflexivity).
  assert (Hx2 : (index (after (ReplaceOrInsert "f" nil_feature None []) New)).*1
                = ["f"%string]) by (vm_compute; reflexivity).
  unfold in_index, in_values. rewrite Hv1, Hv2, Hx1, Hx2.
  split; [vm_compute; reflexivity |].
  split; [vm_compute; reflexivity |].
  split; [apply list_elem_of_singleton; reflexivity |].
  split; [intros [s Hs]; by apply not_elem_of_empty in Hs |].
  split; [exact I |].
  split; [vm_compute; reflexivity |].
  split; [apply list_elem_of_singleton; reflexivity |].
  intros [s Hs]. by apply not_elem_of_empty in Hs.
Qed.

End Witnesses.

(** ** The traces of the spatial queries *)

Module QueryFacts.
Import geojson collection.

Section Walk.
Context `{Externals} {S : Type}.
Implicit Types (q : Q S) (iterator : string -> Object -> list float -> S -> bool * S).













End Walk.



End QueryFacts.

(** ** The snapshot codec *)

Module CodecFacts.
Import geojson collection GoInt GoIntFacts MonadFacts SumFacts InvFacts.

Section Decode.
Context `{Externals}.






End Decode.


End CodecFacts.

(** ** The claims on the spatial queries and the codec, on the examples *)

Module Witnesses2.
Import geojson collection GoInt Claims QueryFacts CodecFacts Witnesses examples.








(** C4 fails on the code under sparse > 0 with a target: the point P lies
    in the bounding box of the disc and outside the disc; the search of the
    first tile refined by [Within(target)] does not visit it, the search of
    the same tile refined by [WithinBBox(tile)], which follows, does.  The
    same holds of [Intersects].  Under sparse = 0 only the refinement by the
    target is run and P is not visited. *)
Theorem C4_sparse_target_runs_bbox_refinement :
  geojson.Within (point "P" 0.125 0.125) disc = Ok false /\
  geojson.Intersects (point "P" 0.125 0.125) disc = Ok false /\
  match Within 0 1 (Some disc) 0 0 0 0 0 0 take_all corner q0 with
  | Ok (n, q') =>
      vis q' = 1%nat /\
      summary (trace q')
      = [inl 0%N; inl 0%N; inr ("P"%string, true); inl 0%N; inl 0%N; inl 0%N; inl 0%N;
         inl 0%N; inl 0%N]
  | Panic => False
  end /\
  match Intersects 100 0 1 (Some disc) 0 0 0 0 0 0 take_all corner q0 with
  | Some (Ok (n, q')) =>
      vis q' = 1%nat /\
      summary (trace q')
      = [inl 0%N; inl 0%N; inr ("P"%string, true); inl 0%N; inl 0%N; inl 0%N; inl 0%N;
         inl 0%N; inl 0%N]
  | _ => False
  end /\
  match Within 0 0 (Some disc) 0 0 0 0 0 0 take_all corner q0 with
  | Ok (n, q') => vis q' = 0%nat /\ summary (trace q') = [inl 0%N]
  | Panic => False
  end.
Proof. vm_compute. repeat split; reflexivity. Qed.

(** C5 fails on the code.  A has the field speed and B has none: the
    snapshot is written, and decoding it into a new collection panics on the
    row of B, whose values are shorter than the names.  A has two values set
    directly and the registry is empty: the snapshot is decoded without
    error and the values of A are lost. *)
Theorem C5_snapshot_round_trip_breaks :
  match MarshalJSON one_field with
  | Ok (inl doc) =>
      doc = text_of {| Rows := [ {| Id := "A"; Obj := "A"; Values := [10%float] |};
                                 {| Id := "B"; Obj := "B"; Values := [] |} ];
                       Fields := Some ["speed"%string] |} /\
      (UnmarshalJSON doc New).1 = Panic
  | _ => False
  end /\
  match MarshalJSON direct_values with
  | Ok (inl doc) =>
      (Get "A" direct_values).1 = Ok (Some (point "A" 0.5 0.5), [1%float; 2%float], true) /\
      (UnmarshalJSON doc New).1 = Ok None /\
      (Get "A" (after (UnmarshalJSON doc) New)).1 = Ok (Some (point "A" 0.5 0.5), [], true)
  | _ => False
  end.
Proof. vm_compute. repeat split; reflexivity. Qed.



End Witnesses2.
